(** * Sessions: a per-request session registry (package [sessions])

    A shallow embedding of [sessions.go]: the [Session] value bag with its
    flash messages and dirty flag, the per-request [Registry] that caches one
    session per name, and the [MultiError] rendering.

    Conventions of the embedding:
    - the registry, the stores and the middleware see a session through
      its fields: for them a Go [interface{}] value is a [value], where a
      flash slice is its contents, and a map key is a [key], one of the
      comparable types that have no NaN;
    - what [Get], [Set], [Delete] and the flash operations do to
      [Session.Values] for every key and every slice is in the part
      "Session values in full": any [interface{}] as key, hashed by the
      runtime, a map that may be nil, and slices as headers over backing
      arrays that may be shared;
    - [*Session] is a [ptr] into a heap of sessions, [nil] is [None];
    - a Go [error] is identified with its message, [nil] is [None];
    - a method that may panic returns an [outcome]; the state it has reached
      at the panic is kept next to it. *)

From stdpp Require Import gmap strings list fin_maps pretty.

Local Open Scope string_scope.
Local Open Scope list_scope.

(** ** Dynamic values *)

(** The values an [interface{}] can hold, as far as the package looks at
    them: [VSlice] is a [[]interface{}], the representation of a flash
    sequence, taken as its contents; everything else is not a sequence.
    The slice as a header over a backing array is [slice] in the part on
    the session values in full. *)
#[warnings="-register-all"]
Inductive value : Type :=
  | VNil
  | VBool (b : bool)
  | VInt (n : Z)
  | VString (s : string)
  | VSlice (l : list value).

(** Keys of [Session.Values] of the comparable types [bool], [int] and
    [string], which the map finds again. The keys it does not find again
    (a NaN) or cannot hash (a slice) are in [hash_key], in the part on the
    session values in full. *)
Inductive key : Type :=
  | KBool (b : bool)
  | KInt (n : Z)
  | KString (s : string).

#[global] Instance key_eq_dec : EqDecision key.
Proof. solve_decision. Defined.

Definition key_to_sum (k : key) : bool + Z + string :=
  match k with
  | KBool b => inl (inl b)
  | KInt n => inl (inr n)
  | KString s => inr s
  end.

Definition key_of_sum (x : bool + Z + string) : key :=
  match x with
  | inl (inl b) => KBool b
  | inl (inr n) => KInt n
  | inr s => KString s
  end.

#[global] Instance key_countable : Countable key.
Proof. apply (inj_countable' key_to_sum key_of_sum). by intros []. Defined.

(** [error]: [nil] or an error with the given [Error()] message. *)
Definition error : Type := option string.

(** Why a call did not return. *)
Inductive fault : Type :=
  | NilDereference        (* field access or method call through nil *)
  | TypeAssertion         (* v.([]interface{}) on a value of another type *)
  | Fatal.                (* Logger().Fatalln: the process exits *)

Inductive outcome (A : Type) : Type :=
  | Return (a : A)
  | Panic (f : fault).
Arguments Return {A} a.
Arguments Panic {A} f.

Definition returned {A} (o : outcome A) : Prop :=
  match o with Return _ => True | Panic _ => False end.

(** ** Options and Session *)

(** Default flashes key. *)
Definition flashesKey : string := "_flash".

Record Options : Type := {
  Path : string;
  Domain : string;
  MaxAge : Z;
  Secure : bool;
  HttpOnly : bool
}.

(** A [Store] interface value: [nil] or a reference to a store object. *)
Definition store_ref : Type := nat.
Definition Store : Type := option store_ref.

(** [SessionOptions] is the field [Options] of the Go struct. *)
Record Session : Type := {
  ID : string;
  Values : gmap key value;
  SessionOptions : option Options;
  IsNew : bool;
  store : Store;
  name : string;
  dirty : bool
}.

Definition set_Values (f : gmap key value → gmap key value) (s : Session) : Session :=
  {| ID := ID s; Values := f (Values s); SessionOptions := SessionOptions s;
     IsNew := IsNew s; store := store s; name := name s; dirty := dirty s |}.

Definition set_store (st : Store) (s : Session) : Session :=
  {| ID := ID s; Values := Values s; SessionOptions := SessionOptions s;
     IsNew := IsNew s; store := st; name := name s; dirty := dirty s |}.

Definition set_name (nm : string) (s : Session) : Session :=
  {| ID := ID s; Values := Values s; SessionOptions := SessionOptions s;
     IsNew := IsNew s; store := store s; name := nm; dirty := dirty s |}.

Definition set_dirty (b : bool) (s : Session) : Session :=
  {| ID := ID s; Values := Values s; SessionOptions := SessionOptions s;
     IsNew := IsNew s; store := store s; name := name s; dirty := b |}.

(** [NewSession] is called by session stores to create a new session. *)
Definition NewSession (st : Store) (nm : string) : Session :=
  {| ID := EmptyString; Values := ∅; SessionOptions := None; IsNew := false;
     store := st; name := nm; dirty := false |}.

(** ** Methods that only touch their receiver

    A method with receiver [s *Session] that reaches nothing but [*s] is a
    function from the receiver to an outcome and the receiver afterwards. *)
Definition method (A : Type) : Type := Session → outcome A * Session.

(** The optional variadic argument of [Flashes] and [AddFlash]. *)
Definition flash_key (vars : list string) : string :=
  match vars with
  | [] => flashesKey
  | k :: _ => k
  end.

(** [v.([]interface{})] *)
Definition assert_slice (v : value) : outcome (list value) :=
  match v with
  | VSlice l => Return l
  | _ => Panic TypeAssertion
  end.

Definition Session_Flashes (vars : list string) : method (list value) := fun s =>
  let k := KString (flash_key vars) in
  match Values s !! k with
  | Some v =>
      (* Drop the flashes and return it. *)
      let s' := set_Values (delete k) s in
      (assert_slice v, s')
  | None => (Return [], s)
  end.

(** [AddFlash] on the contents of the flash slice; what [append] does to
    the backing array is in [Session_AddFlash_full]. *)
Definition Session_AddFlash (val : value) (vars : list string) : method unit := fun s =>
  let k := KString (flash_key vars) in
  let flashes :=
    match Values s !! k with
    | Some v => assert_slice v
    | None => Return []
    end in
  match flashes with
  | Return fl => (Return tt, set_Values (<[k := VSlice (fl ++ [val])]>) s)
  | Panic f => (Panic f, s)
  end.

Definition Session_Name : method string := fun s => (Return (name s), s).

Definition Session_Store : method Store := fun s => (Return (store s), s).

(** Reading a missing key of a Go map gives the zero value, the [nil]
    interface. *)
Definition Session_Get (k : key) : method value := fun s =>
  (Return (default VNil (Values s !! k)), s).

Definition Session_Set (k : key) (val : value) : method unit := fun s =>
  (Return tt, set_dirty true (set_Values (<[k := val]>) s)).

Definition Session_Delete (k : key) : method unit := fun s =>
  (Return tt, set_dirty true (set_Values (delete k) s)).

(** ** MultiError *)

(** [MultiError] stores multiple errors; slots may be [nil]. *)
Definition MultiError : Type := list error.

(** The loop of [MultiError.Error]: [s] is the message of the first non-nil
    error, [n] counts the non-nil errors. *)
Definition MultiError_scan (m : MultiError) : string * nat :=
  foldl (fun '(s, n) e =>
           match e with
           | Some msg => (if decide (n = 0) then msg else s, S n)
           | None => (s, n)
           end) (EmptyString, 0) m.

Definition MultiError_Error (m : MultiError) : string :=
  let '(s, n) := MultiError_scan m in
  match n with
  | 0 => "(0 errors)"
  | 1 => s
  | 2 => s +:+ " (and 1 other error)"
  | _ => s +:+ " (and " +:+ pretty (n - 1) +:+ " other errors)"
  end.

(** ** The request state

    Sessions are shared through pointers: the registry and the handlers hold
    the same [*Session]. The heap maps the address of every session created
    during the request to its current contents. *)
Definition loc : Type := positive.
Definition ptr : Type := option loc.

(** [*floki.Context], opaque to the package. *)
Definition floki_Context : Type := nat.

(** [sessionInfo] stores a session tracked by the registry (fields [s] and
    [e] of the Go struct). *)
Record sessionInfo : Type := {
  info_s : ptr;
  info_e : error
}.

(** [Registry] stores sessions used during a request. *)
Record Registry : Type := {
  context : floki_Context;
  sessions : gmap string sessionInfo
}.

(** Modelled from the spec: the [Store] interface, which [sessions.go] uses
    but does not declare. [New(c, name)] produces a session (or [nil]) and an
    error; [Save(c, session)] persists the session's current values and
    returns an error. A store keeps its own state outside the request
    ([store_state]); [New] hands back a session of its own making, which the
    embedding places at a fresh address. *)
Class StoreEnv : Type := {
  store_state : Type;
  store_New : store_ref → floki_Context → string → store_state →
              (option Session * error) * store_state;
  store_Save : store_ref → floki_Context → Session → store_state →
               error * store_state
}.

(** The [%q] verb of [fmt] ([strconv.Quote]), from Go's standard library. *)
Class GoFmt : Type := { quote : string → string }.

(** Calls made on stores, in order; ghost state that lets a statement count
    them. [CallSave] records the session passed and the error returned. *)
Inductive call : Type :=
  | CallNew (st : store_ref) (nm : string)
  | CallSave (st : store_ref) (l : loc) (err : error).

Section Request.
Context `{StoreEnv} `{GoFmt}.

(** Everything a request can reach: the sessions on the heap, the registry
    bound to the request context, the stores' own state, and the log of
    store calls. *)
Record State : Type := {
  heap : gmap loc Session;
  registry : Registry;
  ext : store_state;
  calls : list call
}.

Definition set_heap (f : gmap loc Session → gmap loc Session) (σ : State) : State :=
  {| heap := f (heap σ); registry := registry σ; ext := ext σ; calls := calls σ |}.

Definition set_sessions (f : gmap string sessionInfo → gmap string sessionInfo)
    (σ : State) : State :=
  {| heap := heap σ;
     registry := {| context := context (registry σ);
                    sessions := f (sessions (registry σ)) |};
     ext := ext σ; calls := calls σ |}.

Definition set_ext (e : store_state) (σ : State) : State :=
  {| heap := heap σ; registry := registry σ; ext := e; calls := calls σ |}.

Definition log_call (c : call) (σ : State) : State :=
  {| heap := heap σ; registry := registry σ; ext := ext σ;
     calls := calls σ ++ [c] |}.

(** *** A state monad with panics *)
Definition M (A : Type) : Type := State → outcome A * State.

#[global] Instance M_ret : MRet M := fun A a σ => (Return a, σ).

#[global] Instance M_bind : MBind M := fun A B k m σ =>
  match m σ with
  | (Return a, σ') => k a σ'
  | (Panic f, σ') => (Panic f, σ')
  end.

Definition panic {A} (f : fault) : M A := fun σ => (Panic f, σ).

Definition gets {A} (f : State → A) : M A := fun σ => (Return (f σ), σ).

Definition modify (f : State → State) : M unit := fun σ => (Return tt, f σ).

(** [*p]: the address behind a pointer that is about to be read or
    written. A nil pointer panics; so does an address that holds no
    session, which a Go pointer never is. *)
Definition deref (p : ptr) : M (loc * Session) := fun σ =>
  match p with
  | None => (Panic NilDereference, σ)
  | Some l =>
      match heap σ !! l with
      | Some s => (Return (l, s), σ)
      | None => (Panic NilDereference, σ)
      end
  end.

(** [p.field = x] and the like. *)
Definition update (p : ptr) (f : Session → Session) : M unit :=
  '(l, s) ← deref p;
  modify (set_heap (<[l := f s]>)).

(** Calling a receiver-only method through a pointer. *)
Definition invoke {A} (p : ptr) (m : method A) : M A :=
  '(l, s) ← deref p;
  let '(o, s') := m s in
  modify (set_heap (<[l := s']>));;
  match o with
  | Return a => mret a
  | Panic f => panic f
  end.

(** *** Calls on the [Store] interface *)

(** [store.New(c, name)]; the session returned is placed at an address
    that no session occupies. *)
Definition Store_New (st : Store) (c : floki_Context) (nm : string) : M (ptr * error) :=
  match st with
  | None => panic NilDereference
  | Some id =>
      e ← gets ext;
      let '((os, err), e') := store_New id c nm e in
      modify (set_ext e');;
      modify (log_call (CallNew id nm));;
      match os with
      | None => mret (None, err)
      | Some s0 =>
          h ← gets heap;
          let l := fresh (dom h) in
          modify (set_heap (<[l := s0]>));;
          mret (Some l, err)
      end
  end.

(** [store.Save(c, session)] *)
Definition Store_Save (st : Store) (c : floki_Context) (l : loc) (s : Session) : M error :=
  match st with
  | None => panic NilDereference
  | Some id =>
      e ← gets ext;
      let '(err, e') := store_Save id c s e in
      modify (set_ext e');;
      modify (log_call (CallSave id l err));;
      mret err
  end.

(** [Save] is a convenience method to save this session. *)
Definition Session_Save (c : floki_Context) (p : ptr) : M error :=
  '(l, s) ← deref p;
  Store_Save (store s) c l s.

(** [flushSession] runs when the request context is destroyed; [p] is the
    session that the middleware has put in the context under "_session". *)
Definition flushSession (c : floki_Context) (p : ptr) : M unit :=
  '(l, s) ← deref p;
  if dirty s then
    err ← Session_Save c p;
    match err with
    | Some _ => panic Fatal
    | None => mret tt
    end
  else mret tt.

(** *** Registry *)

(** [Get] registers and returns a session for the given name and session
    store. *)
Definition Registry_Get (st : Store) (nm : string) : M (ptr * error) :=
  r ← gets registry;
  '(session, err) ←
    match sessions r !! nm with
    | Some info => mret (info_s info, info_e info)
    | None =>
        '(session, err) ← Store_New st (context r) nm;
        update session (set_name nm);;
        modify (set_sessions (<[nm := {| info_s := session; info_e := err |}]>));;
        mret (session, err)
    end;
  update session (set_store st);;
  mret (session, err).

Definition missing_store (nm : string) : string :=
  "sessions: missing store for session " +:+ quote nm.

Definition error_saving (nm : string) (msg : string) : string :=
  "sessions: error saving session " +:+ quote nm +:+ " -- " +:+ msg.

(** The body of the loop of [Registry.Save] for one entry; [errMulti] is
    the composite error so far. *)
Definition Registry_Save_entry (c : floki_Context) (errMulti : MultiError)
    (entry : string * sessionInfo) : M MultiError :=
  let '(nm, info) := entry in
  let session := info_s info in
  '(l, s) ← deref session;
  match store s with
  | None => mret (errMulti ++ [Some (missing_store nm)])
  | Some id =>
      err ← Store_Save (Some id) c l s;
      match err with
      | Some msg => mret (errMulti ++ [Some (error_saving nm msg)])
      | None => mret errMulti
      end
  end.

Fixpoint Registry_Save_loop (c : floki_Context) (errMulti : MultiError)
    (entries : list (string * sessionInfo)) : M MultiError :=
  match entries with
  | [] => mret errMulti
  | entry :: rest =>
      errMulti' ← Registry_Save_entry c errMulti entry;
      Registry_Save_loop c errMulti' rest
  end.

(** [Save] saves all sessions registered for the current request, visiting
    the entries in the order [entries]. The result is [nil] ([None]) or the
    composite error. *)
Definition Registry_Save_in (c : floki_Context)
    (entries : list (string * sessionInfo)) : M (option MultiError) :=
  errMulti ← Registry_Save_loop c [] entries;
  match errMulti with
  | [] => mret None
  | _ => mret (Some errMulti)
  end.

(** Go ranges over a map in an unspecified order: [Registry.Save] may
    visit the tracked entries in any order. *)
Definition Registry_Save (c : floki_Context) (σ : State)
    (res : outcome (option MultiError)) (σ' : State) : Prop :=
  ∃ entries, entries ≡ₚ map_to_list (sessions (registry σ)) ∧
    Registry_Save_in c entries σ = (res, σ').

End Request.

(** ** NewCookie *)

(** [time.Time], identified with the instant it denotes, counted in
    nanoseconds since the Unix epoch. *)
Definition Time : Type := Z.

(** The zero [time.Time], January 1 of year 1 UTC: the value of a field
    [Expires] that was never assigned. *)
Definition zero_Time : Time := (-62135596800 * 1000000000)%Z.

(** [time.Unix(sec, nsec)] *)
Definition time_Unix (sec nsec : Z) : Time := (sec * 1000000000 + nsec)%Z.

(** [time.Duration] is an [int64] count of nanoseconds, whose arithmetic
    wraps around; [time.Second] is 10^9 of them. *)
Definition wrap64 (z : Z) : Z := ((z + 2 ^ 63) mod 2 ^ 64 - 2 ^ 63)%Z.

Definition time_Second : Z := 1000000000%Z.

Definition Duration_mul (a b : Z) : Z := wrap64 (a * b).

(** [t.Add(d)] *)
Definition Time_Add (t : Time) (d : Z) : Time := (t + d)%Z.

(** The fields of [http.Cookie] that [NewCookie] sets; the others keep their
    zero value. *)
Record Cookie : Type := {
  Cookie_Name : string;
  Cookie_Value : string;
  Cookie_Path : string;
  Cookie_Domain : string;
  Cookie_MaxAge : Z;
  Cookie_Secure : bool;
  Cookie_HttpOnly : bool;
  Cookie_Expires : Time
}.

(** A call that returns or panics with a message of its own. *)
Inductive panics_or (A : Type) : Type :=
  | Result (a : A)
  | PanicValue (v : string).
Arguments Result {A} a.
Arguments PanicValue {A} v.

(** [NewCookie] returns an [http.Cookie] with the options set. It also sets
    the [Expires] field calculated based on the [MaxAge] value. [now] is what
    [time.Now()] returns; [MaxAge] is an [int] of 64 bits. *)
Definition NewCookie (nm val : string) (options : option Options) (now : Time) :
    panics_or Cookie :=
  match options with
  | None => PanicValue "NewCookie got <nil> options"
  | Some o =>
      let expires :=
        if decide (MaxAge o > 0)%Z then
          let d := Duration_mul (MaxAge o) time_Second in
          Time_Add now d
        else if decide (MaxAge o < 0)%Z then
          (* Set it to the past to expire now. *)
          time_Unix 1 0
        else zero_Time in
      Result {| Cookie_Name := nm; Cookie_Value := val;
                Cookie_Path := Path o; Cookie_Domain := Domain o;
                Cookie_MaxAge := MaxAge o; Cookie_Secure := Secure o;
                Cookie_HttpOnly := HttpOnly o; Cookie_Expires := expires |}
  end.

(** ** The request context and the middleware *)

(** Modelled from its use in [sessions.go]: the key/value store of
    [floki.Context], a type of the framework that the package is written
    for. [Set] stores a value under a string key, [Get] reads it back (nil
    for a key that was never set), [MustGet] panics for such a key,
    [BeforeDestroy] registers a function to run when the context is
    destroyed, [Next] runs the rest of the handler chain. An [item] is what
    the package finds in the store. *)
Inductive item : Type :=
  | ItemRegistry               (* the [*Registry] of this request *)
  | ItemSession (p : ptr)      (* a [*Session] *)
  | ItemValues (l : loc)       (* the [Values] map of the session at [l] *)
  | ItemOther (v : value).     (* any other value; [ItemOther VNil] is nil *)

(** registryKey is the key used to store the registry in the context. *)
Definition registryKey : string := "_sessionReg".

(** Why a handler did not return: a panic of the runtime, [panic(err)] with
    an error, or [MustGet] on a missing key. *)
Inductive abort : Type :=
  | Fault (f : fault)
  | PanicError (msg : string)
  | KeyMissing (k : string).

Inductive handled (A : Type) : Type :=
  | Done (a : A)
  | Abort (a : abort).
Arguments Done {A} a.
Arguments Abort {A} a.

Section Context_model.
Context `{StoreEnv} `{GoFmt}.

(** The context of one request: its key/value store, the number of times
    [flushSession] was registered with [BeforeDestroy], and the sessions,
    registry and stores behind it. The registry in [state] is the one that
    [ItemRegistry] points to. *)
Record Request : Type := {
  items : gmap string item;
  hooks : nat;
  state : State
}.

Definition set_items (f : gmap string item → gmap string item) (r : Request) : Request :=
  {| items := f (items r); hooks := hooks r; state := state r |}.

Definition set_state (σ : State) (r : Request) : Request :=
  {| items := items r; hooks := hooks r; state := σ |}.

Definition add_hook (r : Request) : Request :=
  {| items := items r; hooks := S (hooks r); state := state r |}.

Definition Handler (A : Type) : Type := Request → handled A * Request.

#[global] Instance Handler_ret : MRet Handler := fun A a r => (Done a, r).

#[global] Instance Handler_bind : MBind Handler := fun A B k m r =>
  match m r with
  | (Done a, r') => k a r'
  | (Abort x, r') => (Abort x, r')
  end.

Definition abort_with {A} (x : abort) : Handler A := fun r => (Abort x, r).

(** A computation on sessions and registry, run inside a handler. *)
Definition lift {A} (m : M A) : Handler A := fun r =>
  match m (state r) with
  | (Return a, σ) => (Done a, set_state σ r)
  | (Panic f, σ) => (Abort (Fault f), set_state σ r)
  end.

(** [c.Set(key, value)] *)
Definition Context_Set (k : string) (it : item) : Handler unit := fun r =>
  (Done tt, set_items (<[k := it]>) r).

(** [c.Get(key)], as far as its first result goes: the value, nil when the
    key is not set. *)
Definition Context_Get (k : string) : Handler item := fun r =>
  (Done (default (ItemOther VNil) (items r !! k)), r).

(** [c.MustGet(key)] *)
Definition Context_MustGet (k : string) : Handler item := fun r =>
  match items r !! k with
  | Some it => (Done it, r)
  | None => (Abort (KeyMissing k), r)
  end.

(** [c.BeforeDestroy(flushSession)] *)
Definition Context_BeforeDestroy_flushSession : Handler unit := fun r => (Done tt, add_hook r).

(** [GetRegistry] returns a registry instance for the current request. The
    registry returned is the one in [state]. *)
Definition GetRegistry (c : floki_Context) : Handler unit :=
  reg ← Context_Get registryKey;
  match reg with
  | ItemOther VNil =>
      lift (modify (fun σ =>
        {| heap := heap σ;
           registry := {| context := c; sessions := ∅ |};
           ext := ext σ; calls := calls σ |}));;
      Context_Set registryKey ItemRegistry
  | ItemRegistry => mret tt
  | _ => abort_with (Fault TypeAssertion)
  end.

(** [Get(c)]: what [MustGet] finds under "_session", asserted to be a
    [*Session]. *)
Definition Get (c : floki_Context) : Handler ptr :=
  it ← Context_MustGet "_session";
  match it with
  | ItemSession p => mret p
  | _ => abort_with (Fault TypeAssertion)
  end.

(** [flushSession(c)], the function registered with [BeforeDestroy]: it
    flushes the session found under "_session". *)
Definition flushSession_hook (c : floki_Context) : Handler unit :=
  s ← Get c;
  lift (flushSession c s).

(** The handler that [Sessions(name, store, options)] returns, applied to
    the context [c]; [next] is the rest of the chain. The options, defaulted
    when nil, are not used by the handler. *)
Definition Sessions (nm : string) (st : Store) (options : option Options)
    (next : Handler unit) (c : floki_Context) : Handler unit :=
  let options :=
    match options with
    | None => Some {| Path := "/"; Domain := EmptyString; MaxAge := 3600%Z;
                      Secure := false; HttpOnly := true |}
    | Some o => Some o
    end in
  (* Map to the Session interface *)
  GetRegistry c;;
  '(s, err) ← lift (Registry_Get st nm);
  match err with
  | Some msg => abort_with (PanicError msg)
  | None =>
      Context_Set "_session" (ItemSession s);;
      (* export session values to the request context *)
      '(l, _) ← lift (deref s);
      Context_Set "session" (ItemValues l);;
      Context_BeforeDestroy_flushSession;;
      next
  end.

(** [Save] saves all sessions used during the current request, visiting
    them in the order [entries]. *)
Definition Save_in (c : floki_Context) (entries : list (string * sessionInfo)) :
    Handler (option MultiError) :=
  GetRegistry c;;
  lift (Registry_Save_in c entries).

(** ... in any order that the map of the registry that [GetRegistry] returns
    can be ranged over. *)
Definition Save (c : floki_Context) (r : Request)
    (res : handled (option MultiError)) (r' : Request) : Prop :=
  ∃ entries,
    entries ≡ₚ map_to_list (sessions (registry (state (snd (GetRegistry c r))))) ∧
    Save_in c entries r = (res, r').

End Context_model.

(** ** Session values in full

    The methods on [Session.Values] once more, this time with everything the
    map and the slices can show: a key is any [interface{}] value, hashed by
    the runtime (a NaN is never found again, a slice cannot be hashed); the
    map may be nil; a [[]interface{}] is a header over a backing array that
    other headers may share, and [append] writes into that array when it has
    room. The definitions above are these with comparable keys, an allocated
    map, and slices that share no array, where a slice is its contents. *)

(** The address of a backing array. *)
Definition addr : Type := positive.

(** A slice header: the array ([None] for a nil slice), the index of the
    first element in it, length and capacity. *)
Record slice : Type := {
  slice_base : option addr;
  slice_off : nat;
  slice_len : nat;
  slice_cap : nat
}.

Definition nil_slice : slice :=
  {| slice_base := None; slice_off := 0; slice_len := 0; slice_cap := 0 |}.

(** An [interface{}] value. [DFloat] is a [float64], given by its IEEE 754
    bit pattern; [DSlice] is a [[]interface{}]. *)
Inductive dyn : Type :=
  | DNil
  | DBool (b : bool)
  | DInt (n : Z)
  | DString (s : string)
  | DFloat (bits : Z)
  | DSlice (h : slice).

(** The keys a map distinguishes. [HFloat] holds the bit pattern of a number
    (with one pattern for both zeros); [HNaN i] is the [i]-th entry made with
    a NaN key, which no key is equal to. *)
Inductive hkey : Type :=
  | HNil
  | HBool (b : bool)
  | HInt (n : Z)
  | HString (s : string)
  | HFloat (bits : Z)
  | HNaN (i : nat).

#[global] Instance hkey_eq_dec : EqDecision hkey.
Proof. solve_decision. Defined.

Definition hkey_to_sum (k : hkey) : unit + bool + Z + string + Z + nat :=
  match k with
  | HNil => inl (inl (inl (inl (inl tt))))
  | HBool b => inl (inl (inl (inl (inr b))))
  | HInt n => inl (inl (inl (inr n)))
  | HString s => inl (inl (inr s))
  | HFloat bits => inl (inr bits)
  | HNaN i => inr i
  end.

Definition hkey_of_sum (x : unit + bool + Z + string + Z + nat) : hkey :=
  match x with
  | inl (inl (inl (inl (inl _)))) => HNil
  | inl (inl (inl (inl (inr b)))) => HBool b
  | inl (inl (inl (inr n))) => HInt n
  | inl (inl (inr s)) => HString s
  | inl (inr bits) => HFloat bits
  | inr i => HNaN i
  end.

#[global] Instance hkey_countable : Countable hkey.
Proof. apply (inj_countable' hkey_to_sum hkey_of_sum). by intros []. Defined.

(** A [float64] is a NaN when its exponent bits are all ones and its
    fraction is not zero. *)
Definition is_NaN (bits : Z) : bool :=
  let b := (bits mod 2 ^ 64)%Z in
  ((b / 2 ^ 52) mod 2 ^ 11 =? 2047)%Z && negb (b mod 2 ^ 52 =? 0)%Z.

(** +0 and -0 are equal, and are one key. *)
Definition float_key (bits : Z) : Z :=
  let b := (bits mod 2 ^ 64)%Z in
  if (b =? 2 ^ 63)%Z then 0%Z else b.

(** What the runtime makes of a key when it accesses a map. *)
Inductive hashed : Type :=
  | Hashed (k : hkey)
  | HashNaN          (* hashes, and is equal to no key, itself included *)
  | Unhashable.      (* runtime error: hash of unhashable type *)

Definition hash_key (v : dyn) : hashed :=
  match v with
  | DNil => Hashed HNil
  | DBool b => Hashed (HBool b)
  | DInt n => Hashed (HInt n)
  | DString s => Hashed (HString s)
  | DFloat bits => if is_NaN bits then HashNaN else Hashed (HFloat (float_key bits))
  | DSlice _ => Unhashable
  end.

(** The panics of the runtime that these methods can run into. *)
Inductive crash : Type :=
  | HashOfUnhashable     (* a map access with a key that cannot be hashed *)
  | AssignToNilMap       (* assignment to entry in nil map *)
  | NotASlice.           (* v.([]interface{}) on a value of another type *)

Inductive ran (A : Type) : Type :=
  | Ok (a : A)
  | Crash (c : crash).
Arguments Ok {A} a.
Arguments Crash {A} c.

(** The backing arrays. *)
Abbreviation arrays := (gmap addr (list dyn)).

(** How [append] sizes the array it allocates for a slice that is full: a
    choice of the Go runtime, of which only that the new capacity is larger
    is used. *)
Class GoRuntime : Type := {
  growslice : nat → nat;
  growslice_grows : ∀ c, (c < growslice c)%nat
}.

(** The session struct with the map as it is: [None] is the nil map. *)
Record Session_full : Type := {
  full_ID : string;
  full_Values : option (gmap hkey dyn);
  full_Options : option Options;
  full_IsNew : bool;
  full_store : Store;
  full_name : string;
  full_dirty : bool
}.

Definition with_Values (m : option (gmap hkey dyn)) (s : Session_full) : Session_full :=
  {| full_ID := full_ID s; full_Values := m; full_Options := full_Options s;
     full_IsNew := full_IsNew s; full_store := full_store s;
     full_name := full_name s; full_dirty := full_dirty s |}.

Definition with_dirty (b : bool) (s : Session_full) : Session_full :=
  {| full_ID := full_ID s; full_Values := full_Values s;
     full_Options := full_Options s; full_IsNew := full_IsNew s;
     full_store := full_store s; full_name := full_name s; full_dirty := b |}.

(** [NewSession], with the map that [make] allocates. *)
Definition NewSession_full (st : Store) (nm : string) : Session_full :=
  {| full_ID := EmptyString; full_Values := Some ∅; full_Options := None;
     full_IsNew := false; full_store := st; full_name := nm;
     full_dirty := false |}.

(** A method runs on its receiver and on the arrays. *)
Definition method_full (A : Type) : Type :=
  Session_full * arrays → ran A * (Session_full * arrays).

(** The elements of a slice. *)
Definition slice_elems (A : arrays) (h : slice) : list dyn :=
  match slice_base h with
  | None => []
  | Some a => take (slice_len h) (drop (slice_off h) (default [] (A !! a)))
  end.

(** [m[k]], and [m[k] = v] on a map that is not nil, for a key that was
    hashed. A NaN finds nothing, and makes an entry of its own. *)
Definition nan_indices (m : gmap hkey dyn) : gset nat :=
  list_to_set (omap (fun k => match k with HNaN i => Some i | _ => None end)
                 (elements (dom m))).

Definition map_lookup (m : option (gmap hkey dyn)) (h : hashed) : option dyn :=
  match m, h with
  | Some m, Hashed k => m !! k
  | _, _ => None
  end.

Definition map_assign (m : gmap hkey dyn) (h : hashed) (v : dyn) : gmap hkey dyn :=
  match h with
  | Hashed k => <[k := v]> m
  | HashNaN => <[HNaN (fresh (nan_indices m)) := v]> m
  | Unhashable => m
  end.

Definition map_delete (h : hashed) (m : gmap hkey dyn) : gmap hkey dyn :=
  match h with
  | Hashed k => delete k m
  | _ => m
  end.

(** [Get]: [return s.Values[key]] *)
Definition Session_Get_full (kv : dyn) : method_full dyn := fun '(s, A) =>
  match hash_key kv with
  | Unhashable => (Crash HashOfUnhashable, (s, A))
  | h => (Ok (default DNil (map_lookup (full_Values s) h)), (s, A))
  end.

(** [Set]: [s.Values[key] = val; s.dirty = true] *)
Definition Session_Set_full (kv val : dyn) : method_full unit := fun '(s, A) =>
  match full_Values s with
  | None => (Crash AssignToNilMap, (s, A))
  | Some m =>
      match hash_key kv with
      | Unhashable => (Crash HashOfUnhashable, (s, A))
      | h => (Ok tt, (with_dirty true (with_Values (Some (map_assign m h val)) s), A))
      end
  end.

(** [Delete]: [delete(s.Values, key); s.dirty = true] *)
Definition Session_Delete_full (kv : dyn) : method_full unit := fun '(s, A) =>
  match hash_key kv with
  | Unhashable => (Crash HashOfUnhashable, (s, A))
  | h => (Ok tt, (with_dirty true (with_Values (map_delete h <$> full_Values s) s), A))
  end.

(** [Flashes]: the slice returned is the header that was stored. *)
Definition Session_Flashes_full (vars : list string) : method_full slice := fun '(s, A) =>
  let k := HString (flash_key vars) in
  match map_lookup (full_Values s) (Hashed k) with
  | Some v =>
      (* Drop the flashes and return it. *)
      let s' := with_Values (delete k <$> full_Values s) s in
      match v with
      | DSlice h => (Ok h, (s', A))
      | _ => (Crash NotASlice, (s', A))
      end
  | None => (Ok nil_slice, (s, A))
  end.

Section Append.
Context `{GoRuntime}.

(** [append(h, v)]: into the array of [h] when it has room after the last
    element, else into a new array, as large as the runtime chooses, to
    which the elements are copied. *)
Definition append (h : slice) (v : dyn) (A : arrays) : slice * arrays :=
  let grown :=
    let a' := fresh (dom A) in
    let c := growslice (slice_cap h) in
    ({| slice_base := Some a'; slice_off := 0;
        slice_len := S (slice_len h); slice_cap := c |},
     <[a' := slice_elems A h ++ v :: replicate (c - S (slice_len h)) DNil]> A) in
  match slice_base h with
  | Some a =>
      if decide (slice_len h < slice_cap h)%nat then
        ({| slice_base := Some a; slice_off := slice_off h;
            slice_len := S (slice_len h); slice_cap := slice_cap h |},
         alter (<[slice_off h + slice_len h := v]>) a A)
      else grown
  | None => grown
  end.

(** [AddFlash]: [s.Values[key] = append(flashes, value)] *)
Definition Session_AddFlash_full (val : dyn) (vars : list string) : method_full unit :=
  fun '(s, A) =>
  let k := HString (flash_key vars) in
  let flashes :=
    match map_lookup (full_Values s) (Hashed k) with
    | Some (DSlice h) => Ok h
    | Some _ => Crash NotASlice
    | None => Ok nil_slice
    end in
  match flashes with
  | Crash c => (Crash c, (s, A))
  | Ok h =>
      let '(h', A') := append h val A in
      match full_Values s with
      | None => (Crash AssignToNilMap, (s, A'))
      | Some m => (Ok tt, (with_Values (Some (<[k := DSlice h']> m)) s, A'))
      end
  end.

(** [AddFlash] called once for each of [vals], in order, on one key. *)
Definition AddFlash_full_all (vals : list dyn) (vars : list string)
    (st : Session_full * arrays) : Session_full * arrays :=
  foldl (fun st v => snd (Session_AddFlash_full v vars st)) st vals.

End Append.

(** * Vocabulary of the statements *)

(** ** Fake stores

    Concrete stores and a concrete quoting function, on which the statements
    below are evaluated: store [0] always succeeds, store [1] creates a
    session but reports a decoding error and fails every save, any other
    store breaks the contract of [New] and returns no session. The stores'
    own state counts the successful saves. *)
Definition fake_New (id : store_ref) (c : floki_Context) (nm : string) (e : nat) :
    (option Session * error) * nat :=
  match id with
  | 0 => ((Some (NewSession (Some 0) nm), None), e)
  | 1 => ((Some (NewSession (Some 1) nm), Some "securecookie: the value is not valid"), e)
  | _ => ((None, Some "store closed"), e)
  end.

Definition fake_Save (id : store_ref) (c : floki_Context) (s : Session) (e : nat) :
    error * nat :=
  match id with
  | 0 => (None, S e)
  | _ => (Some "disk full", e)
  end.

Definition fake_stores : StoreEnv :=
  {| store_state := nat; store_New := fake_New; store_Save := fake_Save |}.

Definition double_quote : Ascii.ascii := Ascii.ascii_of_nat 34.

Definition fake_fmt : GoFmt :=
  {| quote := fun s => String double_quote (s +:+ String double_quote EmptyString) |}.

(** The component errors that are not nil, in order. *)
Definition non_nil (m : MultiError) : list string := omap id m.

Definition is_slice (v : value) : bool :=
  match v with VSlice _ => true | _ => false end.

(** The precondition of the flash operations: what is stored under the key,
    if anything, is a flash sequence. *)
Definition flash_slot_ok (vars : list string) (s : Session) : bool :=
  match Values s !! KString (flash_key vars) with
  | Some v => is_slice v
  | None => true
  end.

(** The number of [New] calls made for a name. *)
Definition is_New_for (nm : string) (c : call) : bool :=
  match c with
  | CallNew _ nm' => bool_decide (nm' = nm)
  | CallSave _ _ _ => false
  end.

Definition New_calls (nm : string) (cs : list call) : nat :=
  length (filter (fun c => is_New_for nm c = true) cs).

Section Statements.
Context `{StoreEnv} `{GoFmt}.

(** The registry tracks only sessions that exist: every entry points to a
    session on the heap. *)
Definition tracked_ok (h : gmap loc Session) (info : sessionInfo) : bool :=
  match info_s info with
  | Some l => bool_decide (is_Some (h !! l))
  | None => false
  end.

Definition registry_wf (σ : State) : Prop :=
  map_Forall (fun _ info => tracked_ok (heap σ) info = true) (sessions (registry σ)).

#[global] Instance registry_wf_dec (σ : State) : Decision (registry_wf σ).
Proof. unfold registry_wf. apply _. Defined.

(** The contract of [Store.New] at one call: the session returned is not
    nil, whatever the error. *)
Definition New_returns_session (st : Store) (nm : string) (σ : State) : Prop :=
  ∃ id s0, st = Some id ∧
    fst (fst (store_New id (context (registry σ)) nm (ext σ))) = Some s0.

(** [tracks h entry (nm, l, s)]: the entry for [nm] points to [l], which
    holds [s]. *)
Definition tracks (h : gmap loc Session) (entry : string * sessionInfo)
    (t : string * loc * Session) : Prop :=
  let '(nm, l, s) := t in
  fst entry = nm ∧ info_s (snd entry) = Some l ∧ h !! l = Some s.

(** What the specification asks of [Save] for one tracked session: the
    failures to record, the store calls made, and the stores' state
    afterwards. A session without a store is a "missing store" failure and
    no call; otherwise the store's [Save] is called, and an error it
    returns is a failure naming the session. The messages are written out
    here, name quoted: they are compared with the ones the code builds. *)
Definition spec_save_one (c : floki_Context) (t : string * loc * Session)
    (e : store_state) : MultiError * list call * store_state :=
  let '(nm, l, s) := t in
  match store s with
  | None => ([Some ("sessions: missing store for session " +:+ quote nm)], [], e)
  | Some id =>
      let '(err, e') := store_Save id c s e in
      (match err with
       | Some msg =>
           [Some ("sessions: error saving session " +:+ quote nm +:+ " -- " +:+ msg)]
       | None => []
       end, [CallSave id l err], e')
  end.

(** ... and for all of them: every session is attempted, whatever happened
    to the ones before it, and the failures are collected. *)
Fixpoint spec_save_all (c : floki_Context) (ts : list (string * loc * Session))
    (e : store_state) : MultiError * list call * store_state :=
  match ts with
  | [] => ([], [], e)
  | t :: rest =>
      let '(f1, c1, e1) := spec_save_one c t e in
      let '(f2, c2, e2) := spec_save_all c rest e1 in
      (f1 ++ f2, c1 ++ c2, e2)
  end.

(** The composite error as [Save] returns it: nil when nothing failed. *)
Definition nil_or (failures : MultiError) : option MultiError :=
  match failures with
  | [] => None
  | _ => Some failures
  end.

(** The sessions that have a store, with that store: the [Save] calls that
    are due. *)
Definition due (t : string * loc * Session) : option (store_ref * loc) :=
  let '(_, l, s) := t in id ← store s; Some (id, l).

Definition call_target (c : call) : option (store_ref * loc) :=
  match c with
  | CallSave id l _ => Some (id, l)
  | CallNew _ _ => None
  end.

Definition with_stores (σ : State) (e : store_state) (cs : list call) : State :=
  {| heap := heap σ; registry := registry σ; ext := e; calls := calls σ ++ cs |}.

Definition has_no_store (t : string * loc * Session) : Prop := store (snd t) = None.

Definition Save_failed (c : call) : Prop :=
  match c with
  | CallSave _ _ (Some _) => True
  | _ => False
  end.

#[global] Instance has_no_store_dec t : Decision (has_no_store t).
Proof. unfold has_no_store. apply _. Defined.

#[global] Instance Save_failed_dec c : Decision (Save_failed c).
Proof. destruct c as [|? ? []]; simpl; apply _. Defined.

(** The operations of the package on sessions and on the registry. *)
Inductive op : Type :=
  | OpFlashes (p : ptr) (vars : list string)
  | OpAddFlash (p : ptr) (val : value) (vars : list string)
  | OpSave (c : floki_Context) (p : ptr)
  | OpName (p : ptr)
  | OpStore (p : ptr)
  | OpGet (p : ptr) (k : key)
  | OpSet (p : ptr) (k : key) (val : value)
  | OpDelete (p : ptr) (k : key)
  | OpFlush (c : floki_Context) (p : ptr)
  | OpRegistryGet (st : Store) (nm : string)
  | OpRegistrySave (c : floki_Context).

(** [step σ o σ']: running [o] in [σ] leaves the request in [σ'], whether
    the call returned or panicked. *)
Definition step (σ : State) (o : op) (σ' : State) : Prop :=
  match o with
  | OpFlashes p vars => σ' = snd (invoke p (Session_Flashes vars) σ)
  | OpAddFlash p val vars => σ' = snd (invoke p (Session_AddFlash val vars) σ)
  | OpSave c p => σ' = snd (Session_Save c p σ)
  | OpName p => σ' = snd (invoke p Session_Name σ)
  | OpStore p => σ' = snd (invoke p Session_Store σ)
  | OpGet p k => σ' = snd (invoke p (Session_Get k) σ)
  | OpSet p k val => σ' = snd (invoke p (Session_Set k val) σ)
  | OpDelete p k => σ' = snd (invoke p (Session_Delete k) σ)
  | OpFlush c p => σ' = snd (flushSession c p σ)
  | OpRegistryGet st nm => σ' = snd (Registry_Get st nm σ)
  | OpRegistrySave c => ∃ res, Registry_Save c σ res σ'
  end.

Inductive run : State → list op → State → Prop :=
  | run_nil σ : run σ [] σ
  | run_cons σ o σ' os σ'' : step σ o σ' → run σ' os σ'' → run σ (o :: os) σ''.

(** [s'] is a later state of the session [s]: same name, and dirty if [s]
    was. *)
Definition session_le (s s' : Session) : Prop :=
  name s' = name s ∧ (dirty s = true → dirty s' = true).

Definition heap_le (h h' : gmap loc Session) : Prop :=
  ∀ l s, h !! l = Some s → ∃ s', h' !! l = Some s' ∧ session_le s s'.

(** A computation under which sessions only move forward. *)
Definition preserves {A} (m : M A) : Prop :=
  ∀ σ, heap_le (heap σ) (heap (snd (m σ))).

End Statements.

Section Fake_requests.
#[local] Existing Instance fake_stores.

(** A request that has not asked for a session yet. *)
Definition fresh_request : State :=
  {| heap := ∅; registry := {| context := 7; sessions := ∅ |};
     ext := 0; calls := [] |}.

(** ... after a first [Get] of "sid" on store [1], whose [New] reports a
    decoding error. *)
Definition one_session : State := snd (Registry_Get (Some 1) "sid" fresh_request).

(** A request that tracks three sessions: "a" on store [0], whose saves
    succeed, "b" on store [1], whose saves fail, and "c", first bound to
    store [0] and then looked up again with a nil store. *)
Definition three_sessions : State :=
  snd (Registry_Get None "c"
    (snd (Registry_Get (Some 0) "c"
      (snd (Registry_Get (Some 1) "b"
        (snd (Registry_Get (Some 0) "a" fresh_request))))))).

(** The context of a request that no middleware has run on. *)
Definition fresh_context : Request :=
  {| items := ∅; hooks := 0; state := fresh_request |}.

(** A chain with no handler after the middleware. *)
Definition no_handler : Handler unit := mret tt.

(** [one_session] after a [Set] on its session. *)
Definition one_dirty_session : State :=
  snd (invoke (Some 1%positive) (Session_Set (KString "user") (VInt 7)) one_session).

End Fake_requests.

(** ** Further vocabulary *)

Section More_statements.
Context `{StoreEnv} `{GoFmt}.

(** No session is tracked under two names. *)
Definition registry_inj (σ : State) : Prop :=
  ∀ n1 n2 i1 i2,
    sessions (registry σ) !! n1 = Some i1 →
    sessions (registry σ) !! n2 = Some i2 →
    info_s i1 = info_s i2 → n1 = n2.

(** A computation that leaves the registry alone. *)
Definition stable {A} (m : M A) : Prop :=
  ∀ σ, registry (snd (m σ)) = registry σ.

(** A failure that [Registry.Save] records for the session tracked under
    [nm]. *)
Definition failure_of (nm : string) (e : error) : Prop :=
  e = Some (missing_store nm) ∨ ∃ msg, e = Some (error_saving nm msg).

(** The context once a registry has been made for it. *)
Definition with_registry (c : floki_Context) (r : Request) : Request :=
  {| items := <[registryKey := ItemRegistry]> (items r);
     hooks := hooks r;
     state := {| heap := heap (state r);
                 registry := {| context := c; sessions := ∅ |};
                 ext := ext (state r); calls := calls (state r) |} |}.

(** The context as the middleware hands it to the rest of the chain. *)
Definition with_session (l : loc) (σ : State) (r : Request) : Request :=
  {| items := <["session" := ItemValues l]>
                (<["_session" := ItemSession (Some l)]> (items r));
     hooks := S (hooks r);
     state := σ |}.

End More_statements.

(** ** Vocabulary for the values in full *)

(** A header that Go can have made: within its array. *)
Definition slice_ok (A : arrays) (h : slice) : Prop :=
  (slice_len h ≤ slice_cap h)%nat ∧
  match slice_base h with
  | Some a =>
      match A !! a with
      | Some arr => (slice_off h + slice_cap h ≤ length arr)%nat
      | None => False
      end
  | None => slice_cap h = 0
  end.

(** Two slices on one backing array. *)
Definition share_array (h g : slice) : Prop :=
  ∃ a, slice_base h = Some a ∧ slice_base g = Some a.

(** [append(h, v)] writes over an element of [g]: the two are on one array,
    [h] has room, and the place after its last element is within [g]. *)
Definition overwrites (h g : slice) : Prop :=
  share_array h g ∧
  (slice_len h < slice_cap h)%nat ∧
  (slice_off g ≤ slice_off h + slice_len h < slice_off g + slice_len g)%nat.

(** What a flash key holds. *)
Definition flash_slot (s : Session_full) (vars : list string) : option dyn :=
  map_lookup (full_Values s) (Hashed (HString (flash_key vars))).

(** The slice under a flash key, nil when the key holds no slice. *)
Definition flash_slice (s : Session_full) (vars : list string) : slice :=
  match flash_slot s vars with
  | Some (DSlice h) => h
  | _ => nil_slice
  end.

(** The flash key is absent, or holds a flash slice that Go can have made. *)
Definition flash_slot_valid (A : arrays) (s : Session_full) (vars : list string) : Prop :=
  match flash_slot s vars with
  | None => True
  | Some (DSlice h) => slice_ok A h
  | Some _ => False
  end.

(** The runtime that doubles: 1, 2, 4, 8, ... as Go does for short slices. *)
Definition doubling (c : nat) : nat := Nat.max 1 (2 * c).

Definition fake_runtime : GoRuntime.
Proof. refine {| growslice := doubling |}. unfold doubling. lia. Defined.

(** A session that came with a flash under "notice", and its array. *)
Definition fake_flashes : Session_full * arrays :=
  snd (@Session_AddFlash_full fake_runtime (DString "welcome back") ["notice"]
         (NewSession_full None "sid", ∅)).

(** * Properties *)

(** ** Rendering a composite error *)

Lemma MultiError_scan_from (m : MultiError) (s : string) (n : nat) :
  foldl (fun '(s, n) e =>
           match e with
           | Some msg => (if decide (n = 0) then msg else s, S n)
           | None => (s, n)
           end) (s, n) m
  = (if decide (n = 0) then default s (head (non_nil m)) else s,
     n + length (non_nil m)).
Proof.
  revert s n. induction m as [|[msg|] m IH]; intros s n; simpl.
  - case_decide; f_equal; lia.
  - rewrite IH. simpl. repeat case_decide; try lia; f_equal; lia.
  - apply IH.
Qed.

Lemma MultiError_scan_spec (m : MultiError) :
  MultiError_scan m = (default EmptyString (head (non_nil m)), length (non_nil m)).
Proof. unfold MultiError_scan. by rewrite MultiError_scan_from. Qed.

(** C3. Rendering skips the nil slots: with [N] non-nil components, of which
    [first] is the first one's message, the rendering is "(0 errors)" for
    [N = 0], [first] for [N = 1], [first] followed by " (and 1 other error)"
    for [N = 2], and [first] followed by " (and N-1 other errors)", with
    [N-1] in decimal, for [N >= 3]. *)
Theorem MultiError_Error_rendering (m : MultiError) :
  let first := default EmptyString (head (non_nil m)) in
  let N := length (non_nil m) in
  MultiError_Error m =
    if decide (N = 0) then "(0 errors)"
    else if decide (N = 1) then first
    else if decide (N = 2) then first +:+ " (and 1 other error)"
    else first +:+ " (and " +:+ pretty (N - 1) +:+ " other errors)".
Proof.
  intros first N. unfold MultiError_Error.
  rewrite MultiError_scan_spec. fold first N.
  destruct N as [|[|[|N]]]; reflexivity.
Qed.

Example MultiError_Error_none : MultiError_Error [None; None] = "(0 errors)".
Proof. reflexivity. Qed.

Example MultiError_Error_one :
  MultiError_Error [None; Some "disk full"] = "disk full".
Proof. reflexivity. Qed.

Example MultiError_Error_two :
  MultiError_Error [Some "a"; None; Some "b"] = "a (and 1 other error)".
Proof. reflexivity. Qed.

Example MultiError_Error_twelve :
  MultiError_Error (None :: replicate 12 (Some "e")) = "e (and 11 other errors)".
Proof. vm_compute. reflexivity. Qed.

(** ** Session values *)

Lemma flash_key_default : flash_key [] = flashesKey.
Proof. reflexivity. Qed.

Lemma Session_Set_dirty (k : key) (v : value) (s : Session) :
  dirty (snd (Session_Set k v s)) = true.
Proof. reflexivity. Qed.

Lemma Session_Delete_dirty (k : key) (s : Session) :
  dirty (snd (Session_Delete k s)) = true.
Proof. reflexivity. Qed.

Lemma Session_Get_pure (k : key) (s : Session) : snd (Session_Get k s) = s.
Proof. reflexivity. Qed.

(** Neither flash operation writes the dirty flag. *)
Lemma Session_AddFlash_dirty (v : value) (vars : list string) (s : Session) :
  dirty (snd (Session_AddFlash v vars s)) = dirty s.
Proof.
  unfold Session_AddFlash.
  destruct (Values s !! _) as [[]|]; reflexivity.
Qed.

Lemma Session_Flashes_dirty (vars : list string) (s : Session) :
  dirty (snd (Session_Flashes vars s)) = dirty s.
Proof.
  unfold Session_Flashes. destruct (Values s !! _); reflexivity.
Qed.

(** C4. On a session fresh from [NewSession], [AddFlash] returns and leaves
    the dirty flag false, where [Set] and [Delete] set it. *)
Example AddFlash_NewSession_not_dirty :
  let s := NewSession (Some 0) "sid" in
  Session_AddFlash (VString "saved") [] s
  = (Return tt,
     set_Values (<[KString "_flash" := VSlice [VString "saved"]]>) s) ∧
  dirty (snd (Session_AddFlash (VString "saved") [] s)) = false ∧
  dirty (snd (Session_Set (KString "user") (VInt 7) s)) = true ∧
  dirty (snd (Session_Delete (KString "user") s)) = true ∧
  dirty (snd (Session_Get (KString "user") s)) = false.
Proof. repeat split. Qed.

(** C5. A session that holds a flash stored by [AddFlash] and is otherwise
    untouched: [Flashes] returns the flash, removes it from the values, and
    the dirty flag is still false. *)
Example Flashes_with_content_not_dirty :
  let s := snd (Session_AddFlash (VString "saved") [] (NewSession (Some 0) "sid")) in
  fst (Session_Flashes [] s) = Return [VString "saved"] ∧
  Values (snd (Session_Flashes [] s)) = ∅ ∧
  dirty (snd (Session_Flashes [] s)) = false.
Proof. repeat split. Qed.

(** ** Flash messages *)

Lemma Session_Flashes_returned (vars : list string) (s : Session) :
  returned (fst (Session_Flashes vars s)) ↔ flash_slot_ok vars s = true.
Proof.
  unfold Session_Flashes, flash_slot_ok.
  destruct (Values s !! _) as [[]|]; simpl; intuition congruence.
Qed.

Lemma Session_AddFlash_returned (x : value) (vars : list string) (s : Session) :
  returned (fst (Session_AddFlash x vars s)) ↔ flash_slot_ok vars s = true.
Proof.
  unfold Session_AddFlash, flash_slot_ok.
  destruct (Values s !! _) as [[]|]; simpl; intuition congruence.
Qed.

Lemma Session_Flashes_absent (vars : list string) (s : Session) :
  Values s !! KString (flash_key vars) = None →
  Session_Flashes vars s = (Return [], s).
Proof. unfold Session_Flashes. by intros ->. Qed.

(** C10. Once [Set] has stored a value that is not a flash sequence under a
    flash key, [Flashes] and [AddFlash] for that key panic on the type
    assertion; in general each of the two returns exactly when the key is
    absent or holds a flash sequence. *)
Theorem flash_operations_unchecked_cast (s : Session) (vars : list string) (v x : value) :
  is_slice v = false →
  let s' := snd (Session_Set (KString (flash_key vars)) v s) in
  fst (Session_Flashes vars s') = Panic TypeAssertion ∧
  fst (Session_AddFlash x vars s') = Panic TypeAssertion ∧
  (∀ t, returned (fst (Session_Flashes vars t)) ↔ flash_slot_ok vars t = true) ∧
  (∀ t, returned (fst (Session_AddFlash x vars t)) ↔ flash_slot_ok vars t = true).
Proof.
  intros Hv s'.
  assert (Values s' !! KString (flash_key vars) = Some v) as Hs'
    by (unfold s'; simpl; apply lookup_insert_eq).
  split; [|split; [|split]].
  - unfold Session_Flashes. rewrite Hs'. by destruct v.
  - unfold Session_AddFlash. rewrite Hs'. by destruct v.
  - intros t. apply Session_Flashes_returned.
  - intros t. apply Session_AddFlash_returned.
Qed.

Lemma flash_operations_unchecked_cast_witness :
  let s' := snd (Session_Set (KString (flash_key [])) (VString "oops")
                   (NewSession (Some 0) "sid")) in
  fst (Session_Flashes [] s') = Panic TypeAssertion ∧
  fst (Session_AddFlash (VInt 1) [] s') = Panic TypeAssertion ∧
  (∀ t, returned (fst (Session_Flashes [] t)) ↔ flash_slot_ok [] t = true) ∧
  (∀ t, returned (fst (Session_AddFlash (VInt 1) [] t)) ↔ flash_slot_ok [] t = true).
Proof.
  apply (flash_operations_unchecked_cast (NewSession (Some 0) "sid") []
           (VString "oops") (VInt 1)).
  reflexivity.
Defined.

Example Flashes_custom_key_after_Set :
  fst (Session_Flashes ["notice"]
         (snd (Session_Set (KString "notice") (VInt 3) (NewSession None "sid"))))
  = Panic TypeAssertion.
Proof. reflexivity. Qed.

(** ** Session values in full *)

(** *** Slices *)

Section Slice_properties.
Context `{GoRuntime}.

Lemma slice_elems_length (A : arrays) (h : slice) :
  slice_ok A h → length (slice_elems A h) = slice_len h.
Proof.
  intros [Hlen Hbase]. unfold slice_elems.
  destruct (slice_base h) as [a|]; [|simpl; lia].
  destruct (A !! a) as [arr|]; [|done]. simpl.
  rewrite length_take, length_drop. lia.
Qed.

(** [append] adds the value at the end, and makes a header that is within
    its array. *)
Lemma append_spec (A : arrays) (h : slice) (v : dyn) :
  slice_ok A h →
  slice_elems (snd (append h v A)) (fst (append h v A)) = slice_elems A h ++ [v] ∧
  slice_ok (snd (append h v A)) (fst (append h v A)).
Proof.
  intros Hok. pose proof (slice_elems_length A h Hok) as Hlen.
  destruct Hok as [Hle Hbase].
  assert (∀ (l : list dyn) c,
            length l = slice_len h → (slice_len h < c)%nat →
            let a' := fresh (dom A) in
            let h' := {| slice_base := Some a'; slice_off := 0;
                         slice_len := S (slice_len h); slice_cap := c |} in
            let A' := <[a' := l ++ v :: replicate (c - S (slice_len h)) DNil]> A in
            slice_elems A' h' = l ++ [v] ∧ slice_ok A' h') as Hgrown.
  { intros l c Hl Hc a' h' A'. unfold slice_elems, slice_ok, h', A'. simpl.
    rewrite lookup_insert_eq. simpl. split.
    - rewrite drop_0, (cons_middle v l), app_assoc.
      apply take_app_length'. rewrite length_app. simpl. lia.
    - split; [lia|]. rewrite length_app. simpl. rewrite length_replicate. lia. }
  unfold append. destruct (slice_base h) as [a|] eqn:Hb.
  - destruct (A !! a) as [arr|] eqn:Ha; [|done].
    case_decide as Hroom.
    + simpl. unfold slice_elems, slice_ok. simpl.
      rewrite lookup_alter_eq, Ha. simpl.
      unfold slice_elems in Hlen. rewrite Hb, Ha in Hlen. simpl in Hlen.
      split.
      * rewrite drop_insert_ge by lia.
        replace (slice_off h + slice_len h - slice_off h) with (slice_len h) by lia.
        assert (slice_len h < length (drop (slice_off h) arr))%nat
          by (rewrite length_drop; lia).
        rewrite (take_S_r _ _ v) by (by apply list_lookup_insert_eq).
        rewrite take_insert_ge by lia. rewrite Hb, Ha. done.
      * split; [lia|]. rewrite length_insert. done.
    + apply Hgrown; [done|]. pose proof (growslice_grows (slice_cap h)). lia.
  - apply Hgrown; [done|]. pose proof (growslice_grows (slice_cap h)). lia.
Qed.

(** [append] leaves a slice as it was, unless it writes over one of its
    elements. *)
Lemma append_frame (A : arrays) (h g : slice) (v : dyn) :
  slice_ok A g → ¬ overwrites h g →
  slice_elems (snd (append h v A)) g = slice_elems A g ∧
  slice_ok (snd (append h v A)) g.
Proof.
  intros Hok Hov. unfold slice_elems, slice_ok in *. destruct Hok as [Hle Hg].
  destruct (slice_base g) as [b|] eqn:Hb; [|done].
  destruct (A !! b) as [arr|] eqn:Hab; [|done].
  assert (b ≠ fresh (dom A)) as Hfresh.
  { intros ->. apply (is_fresh (dom A)), elem_of_dom. eauto. }
  unfold append. destruct (slice_base h) as [a|] eqn:Ha;
    [case_decide as Hroom|]; cbn [fst snd];
    [|by rewrite lookup_insert_ne, Hab..].
  destruct (decide (a = b)) as [->|Hne];
    [|by rewrite lookup_alter_ne, Hab].
  rewrite lookup_alter_eq, Hab. simpl. rewrite length_insert.
  split; [|done].
  assert (¬ (slice_off g ≤ slice_off h + slice_len h < slice_off g + slice_len g)%nat)
    as Hout.
  { intros Hin. apply Hov. split; [by exists b|]. done. }
  destruct (decide (slice_off h + slice_len h < slice_off g)%nat).
  - by rewrite drop_insert_lt.
  - rewrite drop_insert_ge by lia. by rewrite take_insert_ge by lia.
Qed.

(** The slice that [append] makes is on the array it appended to, or on a
    new one. *)
Lemma append_share (A : arrays) (h g : slice) (v : dyn) :
  slice_ok A g → ¬ share_array h g → ¬ share_array (fst (append h v A)) g.
Proof.
  intros [_ Hg] Hsh (b & Hb & Hgb). rewrite Hgb in Hg.
  destruct (A !! b) as [arr|] eqn:Hab; [|done].
  assert (b ≠ fresh (dom A)) as Hfresh.
  { intros ->. apply (is_fresh (dom A)), elem_of_dom. eauto. }
  unfold append in Hb. destruct (slice_base h) as [a|] eqn:Ha;
    [case_decide|]; simpl in Hb; try congruence.
  apply Hsh. exists b. split; congruence.
Qed.

Lemma not_share_not_overwrites (h g : slice) :
  ¬ share_array h g → ¬ overwrites h g.
Proof. intros Hsh [Hs _]. by apply Hsh. Qed.

End Slice_properties.

(** *** Keys *)

Lemma Set_full_hashed (s : Session_full) (A : arrays) (kv v : dyn) (k : hkey)
    (m : gmap hkey dyn) :
  full_Values s = Some m → hash_key kv = Hashed k →
  Session_Set_full kv v (s, A)
  = (Ok tt, (with_dirty true (with_Values (Some (<[k := v]> m)) s), A)).
Proof. intros Hm Hk. unfold Session_Set_full. by rewrite Hm, Hk. Qed.

Lemma Delete_full_hashed (s : Session_full) (A : arrays) (kv : dyn) (k : hkey) :
  hash_key kv = Hashed k →
  Session_Delete_full kv (s, A)
  = (Ok tt, (with_dirty true (with_Values (delete k <$> full_Values s) s), A)).
Proof. intros Hk. unfold Session_Delete_full. by rewrite Hk. Qed.

Lemma Get_full_hashed (s : Session_full) (A : arrays) (kv : dyn) (k : hkey) :
  hash_key kv = Hashed k →
  Session_Get_full kv (s, A)
  = (Ok (default DNil (map_lookup (full_Values s) (Hashed k))), (s, A)).
Proof. intros Hk. unfold Session_Get_full. by rewrite Hk. Qed.

Lemma Get_full_pure (kv : dyn) (st : Session_full * arrays) :
  snd (Session_Get_full kv st) = st.
Proof. destruct st as [s A]. unfold Session_Get_full. by destruct (hash_key kv). Qed.

(** C7, as stated, fails for keys that the map cannot find or cannot hash,
    and for a session whose map is nil: with a NaN key [Set] returns and
    [Get] returns nil; with a slice as key [Set], [Delete] and [Get] panic;
    on a nil map [Set] panics whatever the key. *)
Lemma Get_after_Set_not_for_every_key :
  let st := (NewSession_full None "sid", (∅ : arrays)) in
  let nan := DFloat 9221120237041090561 in
  (fst (Session_Set_full nan (DInt 1) st) = Ok tt ∧
   fst (Session_Get_full nan (snd (Session_Set_full nan (DInt 1) st))) = Ok DNil ∧
   fst (Session_Get_full nan (snd (Session_Set_full nan (DInt 1) st))) ≠ Ok (DInt 1)) ∧
  (fst (Session_Set_full (DSlice nil_slice) (DInt 1) st) = Crash HashOfUnhashable ∧
   fst (Session_Delete_full (DSlice nil_slice) st) = Crash HashOfUnhashable ∧
   fst (Session_Get_full (DSlice nil_slice) st) = Crash HashOfUnhashable) ∧
  fst (Session_Set_full (DString "user") (DInt 1)
         (with_Values None (NewSession_full None "sid"), (∅ : arrays)))
  = Crash AssignToNilMap.
Proof. vm_compute. repeat split; discriminate. Qed.

(** C7, amended. On a session whose map is allocated, and for a key that the
    runtime can hash and that is not a NaN: [Set] returns and [Get] then
    returns the value set. On every session, and for every key that the
    runtime can hash: [Delete] returns and [Get] then returns nil. And for
    every key and every session, [Get] leaves the session and the arrays as
    they were, whether it returns or panics. *)
Theorem Get_Set_Delete_full (s : Session_full) (A : arrays) (kv v : dyn)
    (k : hkey) (m : gmap hkey dyn) :
  full_Values s = Some m →
  hash_key kv = Hashed k →
  fst (Session_Set_full kv v (s, A)) = Ok tt ∧
  fst (Session_Get_full kv (snd (Session_Set_full kv v (s, A)))) = Ok v ∧
  (∀ kd st, hash_key kd ≠ Unhashable →
     fst (Session_Delete_full kd st) = Ok tt ∧
     fst (Session_Get_full kd (snd (Session_Delete_full kd st))) = Ok DNil) ∧
  (∀ kv' st, snd (Session_Get_full kv' st) = st).
Proof.
  intros Hm Hk.
  rewrite (Set_full_hashed s A kv v k m Hm Hk).
  cbn [fst snd]. rewrite !(Get_full_hashed _ _ kv k Hk). simpl.
  rewrite lookup_insert_eq.
  repeat (split; [done|]). split; [|apply Get_full_pure].
  intros kd [t B] Hkd. unfold Session_Delete_full, Session_Get_full.
  destruct (hash_key kd) as [k'| |] eqn:Hk'; [| |done]; cbn [fst snd];
    rewrite ?Hk'; cbn [fst]; (split; [done|]); simpl;
    destruct (full_Values t) as [m'|]; simpl; try done.
  by rewrite lookup_delete_eq.
Qed.

Lemma Get_Set_Delete_full_witness :
  let s := NewSession_full None "sid" in
  let kv := DFloat (2 ^ 63) in
  fst (Session_Set_full kv (DInt 7) (s, ∅)) = Ok tt ∧
  fst (Session_Get_full kv (snd (Session_Set_full kv (DInt 7) (s, ∅)))) = Ok (DInt 7) ∧
  (∀ kd st, hash_key kd ≠ Unhashable →
     fst (Session_Delete_full kd st) = Ok tt ∧
     fst (Session_Get_full kd (snd (Session_Delete_full kd st))) = Ok DNil) ∧
  (∀ kv' st, snd (Session_Get_full kv' st) = st).
Proof.
  apply (Get_Set_Delete_full (NewSession_full None "sid") ∅ (DFloat (2 ^ 63)) (DInt 7)
           (HFloat 0) ∅); reflexivity.
Defined.

(** The two zeros are one key: what was set under -0 is found under +0. *)
Example Get_full_zeros :
  fst (Session_Get_full (DFloat 0)
         (snd (Session_Set_full (DFloat (2 ^ 63)) (DInt 7)
                 (NewSession_full None "sid", (∅ : arrays)))))
  = Ok (DInt 7).
Proof. reflexivity. Qed.

(** *** Flashes *)

Section Flash_properties.
Context `{GoRuntime}.

Lemma nil_slice_ok (A : arrays) : slice_ok A nil_slice.
Proof. by split. Qed.

Lemma flash_slice_ok (A : arrays) (s : Session_full) (vars : list string) :
  flash_slot_valid A s vars → slice_ok A (flash_slice s vars).
Proof.
  unfold flash_slot_valid, flash_slice.
  destruct (flash_slot s vars) as [[]|]; try done; intros; apply nil_slice_ok.
Qed.

(** [AddFlash] on a slot that is fine: the slice appended to is the one
    stored, or the nil slice. *)
Lemma AddFlash_full_ok (s : Session_full) (A : arrays) (vars : list string)
    (x : dyn) (m : gmap hkey dyn) :
  full_Values s = Some m →
  flash_slot_valid A s vars →
  Session_AddFlash_full x vars (s, A)
  = (Ok tt,
     (with_Values (Some (<[HString (flash_key vars)
                           := DSlice (fst (append (flash_slice s vars) x A))]> m)) s,
      snd (append (flash_slice s vars) x A))).
Proof.
  intros Hm. unfold flash_slot_valid, flash_slice, flash_slot, Session_AddFlash_full.
  destruct (map_lookup (full_Values s) (Hashed (HString (flash_key vars))))
    as [[]|]; try done; intros _;
    destruct (append _ x A) as [h' A'] eqn:E; simpl; by rewrite Hm.
Qed.

Lemma Flashes_full_absent (s : Session_full) (A : arrays) (vars : list string) :
  flash_slot s vars = None →
  Session_Flashes_full vars (s, A) = (Ok nil_slice, (s, A)).
Proof. unfold flash_slot, Session_Flashes_full. by intros ->. Qed.

Lemma Flashes_full_slice (s : Session_full) (A : arrays) (vars : list string)
    (h : slice) :
  flash_slot s vars = Some (DSlice h) →
  Session_Flashes_full vars (s, A)
  = (Ok h, (with_Values (delete (HString (flash_key vars)) <$> full_Values s) s, A)).
Proof. unfold flash_slot, Session_Flashes_full. by intros ->. Qed.

(** What [Flashes] returns depends on what the key holds only. *)
Lemma Flashes_full_slot (s t : Session_full) (A B : arrays) (vars : list string) :
  flash_slot s vars = flash_slot t vars →
  fst (Session_Flashes_full vars (s, A)) = fst (Session_Flashes_full vars (t, B)).
Proof.
  unfold flash_slot, Session_Flashes_full. intros ->.
  by destruct (map_lookup (full_Values t) _) as [[]|].
Qed.

Lemma flash_slot_with_Values (s : Session_full) (m : gmap hkey dyn)
    (vars : list string) :
  flash_slot (with_Values (Some m) s) vars = m !! HString (flash_key vars).
Proof. done. Qed.

(** The state after one [AddFlash] on a slot that is fine: the key holds a
    slice that is within its array and has the new value at its end. *)
Lemma AddFlash_full_after (s : Session_full) (A : arrays) (vars : list string)
    (x : dyn) (m : gmap hkey dyn) :
  full_Values s = Some m →
  flash_slot_valid A s vars →
  ∃ s1 A1 m1 h1,
    Session_AddFlash_full x vars (s, A) = (Ok tt, (s1, A1)) ∧
    full_Values s1 = Some m1 ∧
    m1 = <[HString (flash_key vars) := DSlice h1]> m ∧
    full_dirty s1 = full_dirty s ∧
    flash_slot s1 vars = Some (DSlice h1) ∧
    slice_ok A1 h1 ∧
    slice_elems A1 h1 = slice_elems A (flash_slice s vars) ++ [x] ∧
    h1 = fst (append (flash_slice s vars) x A) ∧
    A1 = snd (append (flash_slice s vars) x A).
Proof.
  intros Hm Hok.
  destruct (append_spec A (flash_slice s vars) x (flash_slice_ok A s vars Hok))
    as [Hel Hok1].
  eexists _, _, _, _. split; [by apply AddFlash_full_ok|].
  split; [done|]. split; [done|]. split; [done|].
  split; [rewrite flash_slot_with_Values; apply lookup_insert_eq|]. done.
Qed.

(** [AddFlash] changes the elements of a slice only by writing over one
    of them, and leaves what the other keys hold as it was; both whether it
    returns or panics. *)
Lemma AddFlash_full_elems (s : Session_full) (A : arrays) (vars : list string)
    (x : dyn) (g : slice) :
  slice_ok A g → ¬ overwrites (flash_slice s vars) g →
  slice_elems (snd (snd (Session_AddFlash_full x vars (s, A)))) g = slice_elems A g.
Proof.
  intros Hg Hov. unfold Session_AddFlash_full, flash_slice, flash_slot in *.
  destruct (map_lookup (full_Values s) (Hashed (HString (flash_key vars))))
    as [[| | | | |h]|]; try done;
    pose proof (append_frame A _ g x Hg Hov) as [Hel _];
    destruct (append _ x A) as [h' A']; by destruct (full_Values s).
Qed.

Lemma AddFlash_full_other_slot (s : Session_full) (A : arrays)
    (ka kb : list string) (x : dyn) :
  flash_key ka ≠ flash_key kb →
  flash_slot (fst (snd (Session_AddFlash_full x ka (s, A)))) kb = flash_slot s kb.
Proof.
  intros Hne. unfold Session_AddFlash_full, flash_slot.
  destruct (full_Values s) as [m|] eqn:Hm; cbn [map_lookup].
  - destruct (m !! HString (flash_key ka)) as [[| | | | |h]|];
      cbn [fst snd]; rewrite ?Hm; try done;
      destruct (append _ x A) as [h' A']; simpl;
      apply lookup_insert_ne; congruence.
  - destruct (append _ x A) as [h' A']. cbn [fst snd]. by rewrite Hm.
Qed.

(** C6, as stated, fails. A session that already holds a flash under the
    key reads back that flash before the two new ones. Keys are not
    isolated when their slices share a backing array: after three flashes
    under the default key, whose slice then has room for a fourth, [Get] of
    that key and [Set] of what it returned under "custom" make two slices
    on one array; a flash "x" added under the default key and then a flash
    "y" added under "custom" are written to the same place, and [Flashes]
    for the default key returns "y" in place of "x". And [AddFlash] panics
    on a session whose map is nil, and on a key that holds something else
    than a flash slice. *)
Lemma Flashes_full_not_as_stated :
  let after {A} (m : method_full A) st := snd (m st) in
  let add v vars := after (@Session_AddFlash_full fake_runtime (DString v) vars) in
  let fresh_session := (NewSession_full None "sid", (∅ : arrays)) in
  let read st :=
    match fst (Session_Flashes_full [] st) with
    | Ok h => slice_elems (snd st) h
    | Crash _ => []
    end in
  read (add "v2" [] (add "v1" [] (add "welcome back" [] fresh_session)))
  = [DString "welcome back"; DString "v1"; DString "v2"] ∧
  (let three := add "c" [] (add "b" [] (add "a" [] fresh_session)) in
   let copied :=
     match fst (Session_Get_full (DString "_flash") three) with
     | Ok v => after (Session_Set_full (DString "custom") v) three
     | Crash _ => three
     end in
   read (add "x" [] copied) = [DString "a"; DString "b"; DString "c"; DString "x"] ∧
   read (add "y" ["custom"] (add "x" [] copied))
   = [DString "a"; DString "b"; DString "c"; DString "y"]) ∧
  fst (@Session_AddFlash_full fake_runtime (DString "v1") []
         (with_Values None (NewSession_full None "sid"), (∅ : arrays)))
  = Crash AssignToNilMap ∧
  fst (@Session_AddFlash_full fake_runtime (DString "v1") []
         (after (Session_Set_full (DString "_flash") (DInt 3)) fresh_session))
  = Crash NotASlice.
Proof. vm_compute. repeat split. Qed.

(** C6, amended. On a session whose map is allocated and whose flash key is
    absent or holds a flash slice: two [AddFlash] calls return, and
    [Flashes] then returns the flashes that were stored followed by the two
    values in insertion order (the two values alone when the key was
    absent) and clears the key, so a second [Flashes] right after returns
    the nil slice; [Flashes] returns the nil slice and changes nothing when
    the key is absent; and two different flash keys are isolated unless
    the [append] under one writes over an element of the slice under the
    other, which takes two slices on one backing array: short of that, a
    flash added under one key is not returned under the other, whose
    [Flashes] returns the same slice with the same elements as before. *)
Theorem Flashes_full_round_trip (s : Session_full) (A : arrays)
    (vars : list string) (v1 v2 : dyn) (m : gmap hkey dyn) :
  full_Values s = Some m →
  flash_slot_valid A s vars →
  let st1 := snd (Session_AddFlash_full v1 vars (s, A)) in
  let st2 := snd (Session_AddFlash_full v2 vars st1) in
  let st3 := snd (Session_Flashes_full vars st2) in
  fst (Session_AddFlash_full v1 vars (s, A)) = Ok tt ∧
  fst (Session_AddFlash_full v2 vars st1) = Ok tt ∧
  (∃ h, fst (Session_Flashes_full vars st2) = Ok h ∧
        slice_elems (snd st3) h = slice_elems A (flash_slice s vars) ++ [v1; v2]) ∧
  (flash_slot s vars = None →
     ∃ h, fst (Session_Flashes_full vars st2) = Ok h ∧ slice_elems (snd st3) h = [v1; v2]) ∧
  flash_slot (fst st3) vars = None ∧
  Session_Flashes_full vars st3 = (Ok nil_slice, st3) ∧
  (flash_slot s vars = None → Session_Flashes_full vars (s, A) = (Ok nil_slice, (s, A))) ∧
  (∀ vars' x,
     flash_key vars' ≠ flash_key vars →
     (¬ overwrites (flash_slice s vars') (flash_slice s vars) →
      fst (Session_Flashes_full vars (snd (Session_AddFlash_full x vars' (s, A))))
      = fst (Session_Flashes_full vars (s, A)) ∧
      slice_elems (snd (snd (Session_AddFlash_full x vars' (s, A)))) (flash_slice s vars)
      = slice_elems A (flash_slice s vars)) ∧
     (slice_ok A (flash_slice s vars') →
      ¬ overwrites (flash_slice s vars) (flash_slice s vars') →
      fst (Session_Flashes_full vars' (snd (Session_AddFlash_full x vars (s, A))))
      = fst (Session_Flashes_full vars' (s, A)) ∧
      slice_elems (snd (snd (Session_AddFlash_full x vars (s, A)))) (flash_slice s vars')
      = slice_elems A (flash_slice s vars'))).
Proof.
  intros Hm Hok st1 st2 st3.
  destruct (AddFlash_full_after s A vars v1 m Hm Hok)
    as (s1 & A1 & m1 & h1 & Hrun1 & Hm1 & Hm1' & _ & Hslot1 & Hok1 & Hel1 & _ & _).
  assert (flash_slot_valid A1 s1 vars) as Hv1
    by (unfold flash_slot_valid; by rewrite Hslot1).
  assert (flash_slice s1 vars = h1) as Hfs1
    by (unfold flash_slice; by rewrite Hslot1).
  destruct (AddFlash_full_after s1 A1 vars v2 m1 Hm1 Hv1)
    as (s2 & A2 & m2 & h2 & Hrun2 & Hm2 & Hm2' & _ & Hslot2 & Hok2 & Hel2 & _ & _).
  rewrite Hfs1, Hel1, <- app_assoc in Hel2. simpl in Hel2.
  assert (st1 = (s1, A1)) as Hst1 by (unfold st1; by rewrite Hrun1).
  assert (st2 = (s2, A2)) as Hst2 by (unfold st2; by rewrite Hst1, Hrun2).
  pose proof (Flashes_full_slice s2 A2 vars h2 Hslot2) as Hfl.
  assert (st3 = (with_Values (delete (HString (flash_key vars)) <$> full_Values s2) s2,
                 A2)) as Hst3 by (unfold st3; by rewrite Hst2, Hfl).
  assert (flash_slot (fst st3) vars = None) as Hgone.
  { rewrite Hst3. simpl. rewrite Hm2. unfold flash_slot. simpl.
    apply lookup_delete_eq. }
  split; [by rewrite Hrun1|]. split; [by rewrite Hst1, Hrun2|].
  split; [exists h2; rewrite Hst2, Hfl, Hst3; done|].
  split.
  { intros Habs. exists h2. rewrite Hst2, Hfl, Hst3. split; [done|].
    simpl. rewrite Hel2. unfold flash_slice, slice_elems. by rewrite Habs. }
  split; [done|].
  split; [destruct st3; by apply Flashes_full_absent|].
  split; [apply Flashes_full_absent|].
  intros vars' x Hne.
  assert (∀ ka kb, flash_key ka ≠ flash_key kb →
            slice_ok A (flash_slice s kb) →
            ¬ overwrites (flash_slice s ka) (flash_slice s kb) →
            fst (Session_Flashes_full kb (snd (Session_AddFlash_full x ka (s, A))))
            = fst (Session_Flashes_full kb (s, A)) ∧
            slice_elems (snd (snd (Session_AddFlash_full x ka (s, A)))) (flash_slice s kb)
            = slice_elems A (flash_slice s kb)) as Hiso.
  { intros ka kb Hkk Hkb Hov. split; [|by apply AddFlash_full_elems].
    pose proof (AddFlash_full_other_slot s A ka kb x Hkk) as Hslot.
    destruct (snd (Session_AddFlash_full x ka (s, A))) as [t B].
    by apply Flashes_full_slot. }
  split.
  - intros Hov. apply Hiso; [done| |done]. by apply flash_slice_ok.
  - intros Hg Hov. apply Hiso; [congruence|done..].
Qed.

End Flash_properties.

Section Fake_flashes.
#[local] Existing Instance fake_runtime.

Lemma Flashes_full_round_trip_witness :
  let s := fst fake_flashes in
  let A := snd fake_flashes in
  let vars := ["notice"] in
  let v1 := DInt 1 in
  let v2 := DString "saved" in
  let st1 := snd (Session_AddFlash_full v1 vars (s, A)) in
  let st2 := snd (Session_AddFlash_full v2 vars st1) in
  let st3 := snd (Session_Flashes_full vars st2) in
  fst (Session_AddFlash_full v1 vars (s, A)) = Ok tt ∧
  fst (Session_AddFlash_full v2 vars st1) = Ok tt ∧
  (∃ h, fst (Session_Flashes_full vars st2) = Ok h ∧
        slice_elems (snd st3) h = slice_elems A (flash_slice s vars) ++ [v1; v2]) ∧
  (flash_slot s vars = None →
     ∃ h, fst (Session_Flashes_full vars st2) = Ok h ∧ slice_elems (snd st3) h = [v1; v2]) ∧
  flash_slot (fst st3) vars = None ∧
  Session_Flashes_full vars st3 = (Ok nil_slice, st3) ∧
  (flash_slot s vars = None → Session_Flashes_full vars (s, A) = (Ok nil_slice, (s, A))) ∧
  (∀ vars' x,
     flash_key vars' ≠ flash_key vars →
     (¬ overwrites (flash_slice s vars') (flash_slice s vars) →
      fst (Session_Flashes_full vars (snd (Session_AddFlash_full x vars' (s, A))))
      = fst (Session_Flashes_full vars (s, A)) ∧
      slice_elems (snd (snd (Session_AddFlash_full x vars' (s, A)))) (flash_slice s vars)
      = slice_elems A (flash_slice s vars)) ∧
     (slice_ok A (flash_slice s vars') →
      ¬ overwrites (flash_slice s vars) (flash_slice s vars') →
      fst (Session_Flashes_full vars' (snd (Session_AddFlash_full x vars (s, A))))
      = fst (Session_Flashes_full vars' (s, A)) ∧
      slice_elems (snd (snd (Session_AddFlash_full x vars (s, A)))) (flash_slice s vars')
      = slice_elems A (flash_slice s vars'))).
Proof.
  apply (Flashes_full_round_trip (fst fake_flashes) (snd fake_flashes) ["notice"]
           (DInt 1) (DString "saved")
           (default ∅ (full_Values (fst fake_flashes)))).
  - vm_compute. reflexivity.
  - vm_compute. lia.
Defined.

(** The tests of the specification, on a new session: two flashes come back
    in order and once; a flash under "custom" comes back under "custom"
    and not under the default key. *)
Example Flashes_full_new_session :
  let after {A} (m : method_full A) st := snd (m st) in
  let read vars st :=
    match fst (Session_Flashes_full vars st) with
    | Ok h => Some (slice_elems (snd st) h)
    | Crash _ => None
    end in
  let new := (NewSession_full None "sid", (∅ : arrays)) in
  let two :=
    after (Session_AddFlash_full (DInt 2) [])
      (after (Session_AddFlash_full (DInt 1) []) new) in
  let custom := after (Session_AddFlash_full (DInt 1) ["custom"]) new in
  read [] two = Some [DInt 1; DInt 2] ∧
  read [] (after (Session_Flashes_full []) two) = Some [] ∧
  read ["custom"] custom = Some [DInt 1] ∧
  read [] custom = Some [].
Proof. vm_compute. repeat split. Qed.

End Fake_flashes.

(** ** The registry *)

Section Registry_properties.
Context `{StoreEnv} `{GoFmt}.

Ltac run := unfold mbind, M_bind, mret, M_ret, gets, modify, panic; simpl.

Lemma deref_Some (σ : State) (l : loc) (s : Session) :
  heap σ !! l = Some s → deref (Some l) σ = (Return (l, s), σ).
Proof. unfold deref. by intros ->. Qed.

Lemma update_Some (σ : State) (l : loc) (s : Session) (f : Session → Session) :
  heap σ !! l = Some s →
  update (Some l) f σ = (Return tt, set_heap (<[l := f s]>) σ).
Proof. intros Hl. unfold update, deref. run. by rewrite Hl. Qed.

Lemma update_returned (σ σ' : State) (p : ptr) (f : Session → Session) (u : unit) :
  update p f σ = (Return u, σ') →
  ∃ l s, p = Some l ∧ heap σ !! l = Some s ∧ σ' = set_heap (<[l := f s]>) σ.
Proof.
  unfold update, deref. run.
  destruct p as [l|]; [|discriminate].
  destruct (heap σ !! l) as [s|] eqn:E; [|discriminate].
  intros [= <-]. eauto.
Qed.

(** A cache hit: nothing but the session's [store] field changes. *)
Lemma Registry_Get_hit (σ : State) (st : Store) (nm : string)
    (l : loc) (e : error) (s : Session) :
  sessions (registry σ) !! nm = Some {| info_s := Some l; info_e := e |} →
  heap σ !! l = Some s →
  Registry_Get st nm σ
  = (Return (Some l, e), set_heap (<[l := set_store st s]>) σ).
Proof.
  intros Hnm Hl. unfold Registry_Get. run. rewrite Hnm. simpl.
  by rewrite (update_Some _ _ _ _ Hl).
Qed.

(** A cache miss on a store that keeps the contract of [New]. *)
Lemma Registry_Get_miss (σ : State) (id : store_ref) (nm : string)
    (s0 : Session) (err : error) (e' : store_state) :
  sessions (registry σ) !! nm = None →
  store_New id (context (registry σ)) nm (ext σ) = ((Some s0, err), e') →
  let l := fresh (dom (heap σ)) in
  Registry_Get (Some id) nm σ
  = (Return (Some l, err),
     {| heap := <[l := set_store (Some id) (set_name nm s0)]> (heap σ);
        registry := {| context := context (registry σ);
                       sessions := <[nm := {| info_s := Some l; info_e := err |}]>
                                     (sessions (registry σ)) |};
        ext := e';
        calls := calls σ ++ [CallNew id nm] |}).
Proof.
  intros Hnm HNew l. unfold Registry_Get, Store_New. run.
  rewrite Hnm. run. rewrite HNew. run.
  unfold update, deref. run. fold l.
  rewrite lookup_insert_eq. run. rewrite lookup_insert_eq. run.
  unfold set_heap. simpl. by rewrite !insert_insert_eq.
Qed.

(** A cache miss on a store that returns no session: the call panics on
    [session.name = name], after [New] was called and before anything is
    cached. *)
Lemma Registry_Get_miss_nil (σ : State) (id : store_ref) (nm : string)
    (err : error) (e' : store_state) :
  sessions (registry σ) !! nm = None →
  store_New id (context (registry σ)) nm (ext σ) = ((None, err), e') →
  Registry_Get (Some id) nm σ
  = (Panic NilDereference,
     {| heap := heap σ; registry := registry σ; ext := e';
        calls := calls σ ++ [CallNew id nm] |}).
Proof.
  intros Hnm HNew. unfold Registry_Get, Store_New. run.
  rewrite Hnm. run. by rewrite HNew.
Qed.

Lemma Registry_Get_hit_inv (σ σ1 : State) (st : Store) (nm : string)
    (info : sessionInfo) (p : ptr) (e : error) :
  sessions (registry σ) !! nm = Some info →
  Registry_Get st nm σ = (Return (p, e), σ1) →
  ∃ l s, info_s info = Some l ∧ heap σ !! l = Some s ∧
    p = Some l ∧ e = info_e info ∧
    σ1 = set_heap (<[l := set_store st s]>) σ.
Proof.
  intros Hnm. unfold Registry_Get. run. rewrite Hnm. simpl.
  destruct (update (info_s info) (set_store st) σ) as [[[]|f] σ'] eqn:Hup;
    [|discriminate].
  apply update_returned in Hup as (l & s & Hp & Hl & ->).
  intros [= <- <- <-]. eauto 10.
Qed.

Lemma Registry_Get_miss_inv (σ σ1 : State) (st : Store) (nm : string)
    (p : ptr) (e : error) :
  sessions (registry σ) !! nm = None →
  Registry_Get st nm σ = (Return (p, e), σ1) →
  ∃ id s0 e', st = Some id ∧
    store_New id (context (registry σ)) nm (ext σ) = ((Some s0, e), e') ∧
    Registry_Get st nm σ
    = (Return (Some (fresh (dom (heap σ))), e),
       {| heap := <[fresh (dom (heap σ)) := set_store (Some id) (set_name nm s0)]>
                    (heap σ);
          registry :=
            {| context := context (registry σ);
               sessions :=
                 <[nm := {| info_s := Some (fresh (dom (heap σ))); info_e := e |}]>
                   (sessions (registry σ)) |};
          ext := e';
          calls := calls σ ++ [CallNew id nm] |}).
Proof.
  intros Hnm Hget.
  destruct st as [id|];
    [|revert Hget; unfold Registry_Get, Store_New; run; rewrite Hnm; discriminate].
  destruct (store_New id (context (registry σ)) nm (ext σ)) as [[[s0|] err] e'] eqn:HNew.
  - pose proof (Registry_Get_miss σ id nm s0 err e' Hnm HNew) as Heq.
    simpl in Heq. rewrite Heq in Hget. injection Hget as <- <- <-.
    exists id, s0, e'. by rewrite Heq.
  - rewrite (Registry_Get_miss_nil σ id nm err e' Hnm HNew) in Hget. discriminate.
Qed.

(** Once [Registry.Get] has returned for a name, a further [Registry.Get]
    for that name, with whatever store, returns the same session pointer and
    the same creation error and calls no store. *)
Lemma Registry_Get_again (σ σ1 : State) (st st' : Store) (nm : string)
    (p : ptr) (e : error) :
  Registry_Get st nm σ = (Return (p, e), σ1) →
  ∃ σ2 l,
    p = Some l ∧
    Registry_Get st' nm σ1 = (Return (Some l, e), σ2) ∧
    calls σ2 = calls σ1 ∧
    registry σ2 = registry σ1 ∧
    (sessions (registry σ) !! nm = None →
       New_calls nm (calls σ2) = New_calls nm (calls σ) + 1 ∧
       ∃ id, st = Some id ∧
         e = snd (fst (store_New id (context (registry σ)) nm (ext σ)))) ∧
    (is_Some (sessions (registry σ) !! nm) → calls σ2 = calls σ).
Proof.
  intros Hget.
  destruct (sessions (registry σ) !! nm) as [info|] eqn:Hnm.
  - destruct (Registry_Get_hit_inv _ _ _ _ _ _ _ Hnm Hget)
      as (l & s & Hp & Hl & -> & -> & ->).
    eexists _, l. split; [done|]. split.
    + apply Registry_Get_hit with (s := set_store st s).
      * simpl. rewrite Hnm. f_equal. destruct info; simpl in *; congruence.
      * simpl. apply lookup_insert_eq.
    + simpl. split; [done|]. split; [done|]. split; [by intros [=] | done].
  - destruct (Registry_Get_miss_inv _ _ _ _ _ _ Hnm Hget)
      as (id & s0 & e' & -> & HNew & Heq).
    rewrite Heq in Hget. injection Hget as <- <-.
    eexists _, _. split; [done|]. split.
    + apply Registry_Get_hit with (s := set_store (Some id) (set_name nm s0)).
      * simpl. apply lookup_insert_eq.
      * simpl. apply lookup_insert_eq.
    + simpl. split; [done|]. split; [done|]. split; [|by intros [? [=]]].
      intros _. split.
      * unfold New_calls. rewrite filter_app, length_app. simpl.
        rewrite filter_cons_True by (simpl; by rewrite bool_decide_eq_true).
        done.
      * exists id. by rewrite HNew.
Qed.

Lemma registry_wf_lookup (σ : State) (nm : string) (info : sessionInfo) :
  registry_wf σ → sessions (registry σ) !! nm = Some info →
  ∃ l s, info = {| info_s := Some l; info_e := info_e info |} ∧ heap σ !! l = Some s.
Proof.
  intros Hwf Hnm. specialize (Hwf nm info Hnm). unfold tracked_ok in Hwf.
  destruct info as [[l|] e]; simpl in *; [|done].
  apply bool_decide_eq_true in Hwf as [s Hs]. eauto.
Qed.

(** C1. On a registry whose entries point to sessions, and with a store
    whose [New] keeps its contract of returning a session, two calls of
    [Registry.Get] for one name both return, with the same session pointer
    and the same creation error; the second call calls no store, whichever
    store it is given. A name that was not tracked costs exactly one [New]
    call over the two calls, and the error handed back both times is the one
    that call returned, nil or not; a name that was tracked costs none. *)
Theorem Registry_Get_twice (σ : State) (st st' : Store) (nm : string) :
  registry_wf σ →
  (sessions (registry σ) !! nm = None → New_returns_session st nm σ) →
  ∃ l e σ1 σ2,
    Registry_Get st nm σ = (Return (Some l, e), σ1) ∧
    Registry_Get st' nm σ1 = (Return (Some l, e), σ2) ∧
    calls σ2 = calls σ1 ∧
    registry σ2 = registry σ1 ∧
    (sessions (registry σ) !! nm = None →
       New_calls nm (calls σ2) = New_calls nm (calls σ) + 1 ∧
       ∃ id, st = Some id ∧
         e = snd (fst (store_New id (context (registry σ)) nm (ext σ)))) ∧
    (is_Some (sessions (registry σ) !! nm) → calls σ2 = calls σ).
Proof.
  intros Hwf Hnew.
  assert (∃ l e σ1, Registry_Get st nm σ = (Return (Some l, e), σ1))
    as (l & e & σ1 & Hget).
  { destruct (sessions (registry σ) !! nm) as [info|] eqn:Hnm.
    - destruct (registry_wf_lookup σ nm info Hwf Hnm) as (l & s & Hinfo & Hl).
      rewrite Hinfo in Hnm. eauto using Registry_Get_hit.
    - destruct (Hnew eq_refl) as (id & s0 & -> & Hs0).
      destruct (store_New id (context (registry σ)) nm (ext σ))
        as [[os err] e'] eqn:HNew.
      simpl in Hs0. subst os.
      pose proof (Registry_Get_miss σ id nm s0 err e' Hnm HNew) as Heq.
      simpl in Heq. eauto. }
  destruct (Registry_Get_again σ σ1 st st' nm (Some l) e Hget)
    as (σ2 & l' & [= <-] & Hget' & Hrest).
  exists l, e, σ1, σ2. done.
Qed.

(** C8. On a cache hit, [Registry.Get] hands back the tracked pointer and
    cached error, writes the store passed in into the session's [store]
    field, and changes nothing else: the session's values, name and dirty
    flag, every other session, the registry, and the stores, which are not
    called. *)
Theorem Registry_Get_rebinds_store (σ : State) (st : Store) (nm : string)
    (info : sessionInfo) (l : loc) (s : Session) :
  sessions (registry σ) !! nm = Some info →
  info_s info = Some l →
  heap σ !! l = Some s →
  ∃ σ',
    Registry_Get st nm σ = (Return (Some l, info_e info), σ') ∧
    heap σ' = <[l := set_store st s]> (heap σ) ∧
    (∃ s', heap σ' !! l = Some s' ∧ store s' = st ∧ Values s' = Values s ∧
           name s' = name s ∧ dirty s' = dirty s) ∧
    (∀ l', l' ≠ l → heap σ' !! l' = heap σ !! l') ∧
    registry σ' = registry σ ∧ ext σ' = ext σ ∧ calls σ' = calls σ.
Proof.
  intros Hnm Hp Hl. eexists. split.
  - apply Registry_Get_hit with (s := s); [|done].
    rewrite Hnm. f_equal. destruct info; simpl in *; congruence.
  - simpl. split; [done|]. split.
    + exists (set_store st s). by rewrite lookup_insert_eq.
    + repeat split. intros l' Hne. by rewrite lookup_insert_ne.
Qed.

(** *** Saving every tracked session *)

Lemma Registry_Save_entry_spec (c : floki_Context) (acc : MultiError)
    (entry : string * sessionInfo) (t : string * loc * Session) (σ : State) :
  tracks (heap σ) entry t →
  Registry_Save_entry c acc entry σ
  = let '(f, cs, e') := spec_save_one c t (ext σ) in
    (Return (acc ++ f), with_stores σ e' cs).
Proof.
  destruct entry as [nm info], t as [[nm' l] s]. intros (Hnm & Hp & Hl).
  simpl in Hnm, Hp. subst nm'.
  unfold Registry_Save_entry, spec_save_one, deref. run.
  rewrite Hp, Hl. simpl.
  destruct (store s) as [id|]; simpl.
  - unfold Store_Save. run.
    destruct (store_Save id c s (ext σ)) as [[msg|] e'] eqn:E; simpl;
      unfold with_stores, log_call, set_ext; simpl; try done.
    by rewrite app_nil_r.
  - unfold with_stores. destruct σ; simpl. by rewrite app_nil_r.
Qed.

Lemma Registry_Save_loop_spec (c : floki_Context)
    (entries : list (string * sessionInfo)) (ts : list (string * loc * Session)) :
  ∀ (acc : MultiError) (σ : State),
  Forall2 (tracks (heap σ)) entries ts →
  Registry_Save_loop c acc entries σ
  = let '(f, cs, e') := spec_save_all c ts (ext σ) in
    (Return (acc ++ f), with_stores σ e' cs).
Proof.
  revert ts. induction entries as [|entry entries IH]; intros ts acc σ Hall.
  - apply Forall2_nil_inv_l in Hall as ->. simpl. run.
    unfold with_stores. destruct σ; simpl. by rewrite !app_nil_r.
  - apply Forall2_cons_inv_l in Hall as (t & ts' & Ht & Hall & ->).
    simpl. run. rewrite (Registry_Save_entry_spec c acc entry t σ Ht).
    destruct (spec_save_one c t (ext σ)) as [[f1 c1] e1].
    rewrite (IH ts' (acc ++ f1) (with_stores σ e1 c1) Hall). simpl.
    destruct (spec_save_all c ts' e1) as [[f2 c2] e2].
    unfold with_stores. simpl. by rewrite !app_assoc.
Qed.

Lemma Registry_Save_in_spec (c : floki_Context)
    (entries : list (string * sessionInfo)) (ts : list (string * loc * Session))
    (σ : State) :
  Forall2 (tracks (heap σ)) entries ts →
  Registry_Save_in c entries σ
  = let '(f, cs, e') := spec_save_all c ts (ext σ) in
    (Return (nil_or f), with_stores σ e' cs).
Proof.
  intros Hall. unfold Registry_Save_in. run.
  rewrite (Registry_Save_loop_spec c entries ts [] σ Hall).
  destruct (spec_save_all c ts (ext σ)) as [[f cs] e']. simpl.
  by destruct f.
Qed.

(** One [Save] call for each session that has a store, in order, and no
    other call. *)
Lemma spec_save_all_calls (c : floki_Context) (ts : list (string * loc * Session)) :
  ∀ e f cs e', spec_save_all c ts e = (f, cs, e') →
    omap call_target cs = omap due ts ∧ length cs = length (omap due ts).
Proof.
  induction ts as [|[[nm l] s] ts IH]; intros e f cs e'; cbn.
  - by intros [= <- <- <-].
  - destruct (store s) as [id|]; cbn.
    + destruct (store_Save id c s e) as [err e1].
      destruct (spec_save_all c ts e1) as [[f2 c2] e2] eqn:E.
      intros [= <- <- <-]. destruct (IH _ _ _ _ E) as [IH1 IH2].
      cbn. by rewrite IH1, IH2.
    + destruct (spec_save_all c ts e) as [[f2 c2] e2] eqn:E.
      intros [= <- <- <-]. by apply IH in E.
Qed.

(** Every session without a store is reported. *)
Lemma spec_save_all_missing (c : floki_Context) (ts : list (string * loc * Session)) :
  ∀ e f cs e' nm l s, spec_save_all c ts e = (f, cs, e') →
    (nm, l, s) ∈ ts → store s = None → Some (missing_store nm) ∈ f.
Proof.
  induction ts as [|[[nm0 l0] s0] ts IH]; intros e f cs e' nm l s; simpl.
  - intros _ Hin. by apply elem_of_nil in Hin.
  - intros Heq Hin Hst. destruct (store s0) as [id0|] eqn:Hs0; simpl in Heq.
    + destruct (store_Save id0 c s0 e) as [err e1].
      destruct (spec_save_all c ts e1) as [[f2 c2] e2] eqn:E2.
      injection Heq as <- <- <-.
      apply elem_of_cons in Hin as [Hhd|Hin]; [injection Hhd as -> -> ->; congruence|].
      apply elem_of_app. right. eapply IH; eauto.
    + destruct (spec_save_all c ts e) as [[f2 c2] e2] eqn:E2.
      injection Heq as <- <- <-.
      apply elem_of_cons in Hin as [Hhd|Hin].
      * injection Hhd as -> -> ->. apply elem_of_cons. by left.
      * apply elem_of_cons. right. eapply IH; eauto.
Qed.

(** Every [Save] that returned an error is reported, under the name of
    the session it was called on. *)
Lemma spec_save_all_failed (c : floki_Context) (ts : list (string * loc * Session)) :
  ∀ e f cs e' id l msg, spec_save_all c ts e = (f, cs, e') →
    CallSave id l (Some msg) ∈ cs →
    ∃ nm s, (nm, l, s) ∈ ts ∧ store s = Some id ∧
            Some (error_saving nm msg) ∈ f.
Proof.
  induction ts as [|[[nm0 l0] s0] ts IH]; intros e f cs e' id l msg; simpl.
  - intros [= <- <- <-] Hin. by apply elem_of_nil in Hin.
  - destruct (store s0) as [id0|] eqn:Hst; simpl.
    + destruct (store_Save id0 c s0 e) as [err e1].
      destruct (spec_save_all c ts e1) as [[f2 c2] e2] eqn:E2.
      intros [= <- <- <-] Hin.
      apply elem_of_cons in Hin as [Heq|Hin].
      * injection Heq as <- <- <-. exists nm0, s0. split; [apply elem_of_cons; by left|]. split; [done|].
        apply elem_of_app. left. apply list_elem_of_singleton. done.
      * destruct (IH _ _ _ _ _ _ _ E2 Hin) as (nm & s & Hin' & Hs & Hf).
        exists nm, s. split; [apply elem_of_cons; by right|]. split; [done|].
        apply elem_of_app. by right.
    + destruct (spec_save_all c ts e) as [[f2 c2] e2] eqn:E2.
      intros [= <- <- <-] Hin.
      destruct (IH _ _ _ _ _ _ _ E2 Hin) as (nm & s & Hin' & Hs & Hf).
      exists nm, s. split; [apply elem_of_cons; by right|]. split; [done|].
      apply elem_of_cons. by right.
Qed.

(** The failures are these and no more. *)
Lemma spec_save_all_count (c : floki_Context) (ts : list (string * loc * Session)) :
  ∀ e f cs e', spec_save_all c ts e = (f, cs, e') →
    length f = length (filter has_no_store ts) + length (filter Save_failed cs).
Proof.
  induction ts as [|[[nm0 l0] s0] ts IH]; intros e f cs e' Heq; simpl in Heq.
  - by injection Heq as <- <- <-.
  - destruct (store s0) as [id0|] eqn:Hst; simpl in Heq.
    + destruct (store_Save id0 c s0 e) as [err e1].
      destruct (spec_save_all c ts e1) as [[f2 c2] e2] eqn:E2.
      injection Heq as <- <- <-. apply IH in E2.
      rewrite filter_cons_False by (unfold has_no_store; simpl; congruence).
      change ([CallSave id0 l0 err] ++ c2) with (CallSave id0 l0 err :: c2).
      destruct err as [msg|].
      * rewrite filter_cons_True by done. cbn [length app]. lia.
      * rewrite filter_cons_False by (by intros []). cbn [length app]. lia.
    + destruct (spec_save_all c ts e) as [[f2 c2] e2] eqn:E2.
      injection Heq as <- <- <-. apply IH in E2.
      rewrite filter_cons_True by done. cbn [length app]. lia.
Qed.

Lemma registry_wf_tracks (σ : State) (entries : list (string * sessionInfo)) :
  registry_wf σ →
  entries ≡ₚ map_to_list (sessions (registry σ)) →
  ∃ ts, Forall2 (tracks (heap σ)) entries ts.
Proof.
  intros Hwf Hperm. apply Forall_exists_Forall2_l.
  apply map_Forall_to_list in Hwf. rewrite <- Hperm in Hwf.
  eapply Forall_impl; [exact Hwf|].
  intros [nm info]. unfold tracked_ok. simpl.
  destruct (info_s info) as [l|] eqn:Hp; [|done].
  intros [s Hs]%bool_decide_eq_true. exists (nm, l, s). by simpl.
Qed.

(** The failures are the two messages, each for a tracked session. *)
Lemma spec_save_all_messages (c : floki_Context) (ts : list (string * loc * Session)) :
  ∀ e f cs e', spec_save_all c ts e = (f, cs, e') →
    Forall (fun x => ∃ nm l s, (nm, l, s) ∈ ts ∧
              (x = Some ("sessions: missing store for session " +:+ quote nm) ∨
               ∃ msg, x = Some ("sessions: error saving session " +:+ quote nm
                                +:+ " -- " +:+ msg))) f.
Proof.
  induction ts as [|[[nm0 l0] s0] ts IH]; intros e f cs e' Heq; simpl in Heq.
  - injection Heq as <- <- <-. constructor.
  - assert (∀ e1 f2 c2 e2, spec_save_all c ts e1 = (f2, c2, e2) →
              Forall (fun x => ∃ nm l s, (nm, l, s) ∈ (nm0, l0, s0) :: ts ∧
                (x = Some ("sessions: missing store for session " +:+ quote nm) ∨
                 ∃ msg, x = Some ("sessions: error saving session " +:+ quote nm
                                  +:+ " -- " +:+ msg))) f2) as Htl.
    { intros e1 f2 c2 e2 E2. eapply Forall_impl; [exact (IH _ _ _ _ E2)|].
      intros x (nm & l & s & Hin & Hx).
      exists nm, l, s. split; [by apply elem_of_cons; right | done]. }
    destruct (store s0) as [id0|]; simpl in Heq.
    + destruct (store_Save id0 c s0 e) as [[msg|] e1];
        destruct (spec_save_all c ts e1) as [[f2 c2] e2] eqn:E2;
        injection Heq as <- <- <-; simpl.
      * constructor; [|by eapply Htl].
        exists nm0, l0, s0. split; [by apply elem_of_cons; left | right; eauto].
      * by eapply Htl.
    + destruct (spec_save_all c ts e) as [[f2 c2] e2] eqn:E2.
      injection Heq as <- <- <-. simpl. constructor; [|by eapply Htl].
      exists nm0, l0, s0. split; [by apply elem_of_cons; left | by left].
Qed.

(** C2. On a registry whose entries point to sessions, [Registry.Save]
    returns (it does not stop at a failure), in whatever order it visits
    the entries, and does what the specification asks for every tracked
    session: one [Save] call for each session that has a store and no
    other call; for each session that has none the failure "sessions:
    missing store for session" followed by the quoted name; for each [Save]
    that returned an error the failure "sessions: error saving session"
    followed by the quoted name, " -- " and the error's message; no failure
    besides these; and the composite of all failures as the result, or nil
    when there is none. Sessions and registry are left as they were. *)
Theorem Registry_Save_all (c : floki_Context) (σ : State) :
  registry_wf σ →
  (∃ res σ', Registry_Save c σ res σ') ∧
  ∀ res σ', Registry_Save c σ res σ' →
    ∃ entries ts f cs e',
      entries ≡ₚ map_to_list (sessions (registry σ)) ∧
      Forall2 (tracks (heap σ)) entries ts ∧
      spec_save_all c ts (ext σ) = (f, cs, e') ∧
      res = Return (nil_or f) ∧
      (res = Return None ↔ f = []) ∧
      σ' = with_stores σ e' cs ∧
      omap call_target cs = omap due ts ∧
      length cs = length (omap due ts) ∧
      (∀ nm l s, (nm, l, s) ∈ ts → store s = None →
         Some ("sessions: missing store for session " +:+ quote nm) ∈ f) ∧
      (∀ id l msg, CallSave id l (Some msg) ∈ cs →
         ∃ nm s, (nm, l, s) ∈ ts ∧ store s = Some id ∧
                 Some ("sessions: error saving session " +:+ quote nm
                       +:+ " -- " +:+ msg) ∈ f) ∧
      Forall (fun x => ∃ nm l s, (nm, l, s) ∈ ts ∧
                (x = Some ("sessions: missing store for session " +:+ quote nm) ∨
                 ∃ msg, x = Some ("sessions: error saving session " +:+ quote nm
                                  +:+ " -- " +:+ msg))) f ∧
      length f = length (filter has_no_store ts) + length (filter Save_failed cs).
Proof.
  intros Hwf. split.
  - destruct (Registry_Save_in c (map_to_list (sessions (registry σ))) σ)
      as [res σ'] eqn:E.
    exists res, σ', (map_to_list (sessions (registry σ))). done.
  - intros res σ' (entries & Hperm & Hrun).
    destruct (registry_wf_tracks σ entries Hwf Hperm) as [ts Hts].
    rewrite (Registry_Save_in_spec c entries ts σ Hts) in Hrun.
    destruct (spec_save_all c ts (ext σ)) as [[f cs] e'] eqn:E.
    injection Hrun as <- <-.
    exists entries, ts, f, cs, e'.
    destruct (spec_save_all_calls c ts _ _ _ _ E) as [Hc1 Hc2].
    split; [done|]. split; [done|]. split; [done|]. split; [done|].
    split; [by destruct f|]. split; [done|]. split; [done|]. split; [done|].
    split; [intros nm l s; by apply (spec_save_all_missing c ts _ _ _ _ nm l s E)|].
    split; [intros id l msg; by apply (spec_save_all_failed c ts _ _ _ _ id l msg E)|].
    split; [by apply (spec_save_all_messages c ts _ _ _ _ E)|].
    by apply (spec_save_all_count c ts _ _ _ _ E).
Qed.

(** The registries that [Registry.Get] builds are of this kind. *)
Lemma registry_wf_empty (h : gmap loc Session) (c : floki_Context)
    (e : store_state) (cs : list call) :
  registry_wf {| heap := h; registry := {| context := c; sessions := ∅ |};
                 ext := e; calls := cs |}.
Proof. unfold registry_wf. simpl. apply map_Forall_empty. Qed.

Lemma tracked_ok_insert (h : gmap loc Session) (l : loc) (s : Session)
    (info : sessionInfo) :
  tracked_ok h info = true → tracked_ok (<[l := s]> h) info = true.
Proof.
  unfold tracked_ok. destruct (info_s info) as [l'|]; [|done].
  rewrite !bool_decide_eq_true. intros [s' Hs'].
  destruct (decide (l = l')) as [->|Hne].
  - rewrite lookup_insert_eq. eauto.
  - rewrite lookup_insert_ne by done. eauto.
Qed.

Lemma Registry_Get_wf (σ σ1 : State) (st : Store) (nm : string)
    (p : ptr) (e : error) :
  registry_wf σ →
  Registry_Get st nm σ = (Return (p, e), σ1) →
  registry_wf σ1.
Proof.
  intros Hwf Hget. unfold registry_wf in *.
  destruct (sessions (registry σ) !! nm) as [info|] eqn:Hnm.
  - destruct (Registry_Get_hit_inv _ _ _ _ _ _ _ Hnm Hget)
      as (l & s & Hp & Hl & -> & -> & ->).
    simpl. eapply map_Forall_impl; [exact Hwf|].
    intros ? info'. apply tracked_ok_insert.
  - destruct (Registry_Get_miss_inv _ _ _ _ _ _ Hnm Hget)
      as (id & s0 & e' & -> & HNew & Heq).
    rewrite Heq in Hget. injection Hget as <- <-. simpl.
    apply map_Forall_insert_2.
    + unfold tracked_ok. simpl. rewrite lookup_insert_eq.
      apply bool_decide_eq_true. eauto.
    + eapply map_Forall_impl; [exact Hwf|].
      intros ? info'. apply tracked_ok_insert.
Qed.

(** *** The dirty flag and the name over a request *)

Lemma session_le_refl (s : Session) : session_le s s.
Proof. by split. Qed.

Lemma session_le_trans (s1 s2 s3 : Session) :
  session_le s1 s2 → session_le s2 s3 → session_le s1 s3.
Proof. intros [H1 H2] [H3 H4]. split; [congruence | auto]. Qed.

Lemma heap_le_refl (h : gmap loc Session) : heap_le h h.
Proof. intros l s Hl. eauto using session_le_refl. Qed.

Lemma heap_le_trans (h1 h2 h3 : gmap loc Session) :
  heap_le h1 h2 → heap_le h2 h3 → heap_le h1 h3.
Proof.
  intros H12 H23 l s Hl.
  destruct (H12 l s Hl) as (s2 & Hl2 & Hle2).
  destruct (H23 l s2 Hl2) as (s3 & Hl3 & Hle3).
  eauto using session_le_trans.
Qed.

Lemma heap_le_write (h : gmap loc Session) (l : loc) (s s' : Session) :
  h !! l = Some s → session_le s s' → heap_le h (<[l := s']> h).
Proof.
  intros Hl Hle l0 s0 Hl0. destruct (decide (l = l0)) as [->|Hne].
  - rewrite lookup_insert_eq. exists s'. split; [done|]. congruence.
  - rewrite lookup_insert_ne by done. eauto using session_le_refl.
Qed.

Lemma heap_le_alloc (h : gmap loc Session) (l : loc) (s' : Session) :
  h !! l = None → heap_le h (<[l := s']> h).
Proof.
  intros Hl l0 s0 Hl0. destruct (decide (l = l0)) as [->|Hne]; [congruence|].
  rewrite lookup_insert_ne by done. eauto using session_le_refl.
Qed.

Lemma preserves_ret {A} (a : A) : preserves (mret a).
Proof. intros σ. apply heap_le_refl. Qed.

Lemma preserves_panic {A} (f : fault) : preserves (@panic _ A f).
Proof. intros σ. apply heap_le_refl. Qed.

Lemma preserves_gets {A} (f : State → A) : preserves (gets f).
Proof. intros σ. apply heap_le_refl. Qed.

Lemma preserves_modify (f : State → State) :
  (∀ σ, heap (f σ) = heap σ) → preserves (modify f).
Proof. intros Hf σ. simpl. rewrite Hf. apply heap_le_refl. Qed.

Lemma preserves_bind {A B} (m : M A) (k : A → M B) :
  preserves m → (∀ a, preserves (k a)) → preserves (m ≫= k).
Proof.
  intros Hm Hk σ. unfold mbind, M_bind.
  specialize (Hm σ). destruct (m σ) as [[a|f] σ1]; simpl in *; [|done].
  eapply heap_le_trans; [exact Hm | apply Hk].
Qed.

Lemma preserves_deref (p : ptr) : preserves (deref p).
Proof.
  intros σ. unfold deref. destruct p as [l|]; [|apply heap_le_refl].
  destruct (heap σ !! l); apply heap_le_refl.
Qed.

Lemma preserves_update (p : ptr) (f : Session → Session) :
  (∀ s, session_le s (f s)) → preserves (update p f).
Proof.
  intros Hf σ. unfold update, deref. run.
  destruct p as [l|]; [|apply heap_le_refl].
  destruct (heap σ !! l) as [s|] eqn:Hl; simpl; [|apply heap_le_refl].
  by apply heap_le_write with (s := s).
Qed.

Lemma preserves_invoke {A} (p : ptr) (m : method A) :
  (∀ s, session_le s (snd (m s))) → preserves (invoke p m).
Proof.
  intros Hm σ. unfold invoke, deref. run.
  destruct p as [l|]; [|apply heap_le_refl].
  destruct (heap σ !! l) as [s|] eqn:Hl; simpl; [|apply heap_le_refl].
  specialize (Hm s). destruct (m s) as [[a|f] s']; simpl in *;
    by apply heap_le_write with (s := s).
Qed.

Lemma Session_Flashes_le (vars : list string) (s : Session) :
  session_le s (snd (Session_Flashes vars s)).
Proof. unfold Session_Flashes. destruct (Values s !! _); by split. Qed.

Lemma Session_AddFlash_le (val : value) (vars : list string) (s : Session) :
  session_le s (snd (Session_AddFlash val vars s)).
Proof.
  unfold Session_AddFlash. destruct (Values s !! _) as [[]|]; by split.
Qed.

Lemma Session_Set_le (k : key) (val : value) (s : Session) :
  session_le s (snd (Session_Set k val s)).
Proof. by split. Qed.

Lemma Session_Delete_le (k : key) (s : Session) :
  session_le s (snd (Session_Delete k s)).
Proof. by split. Qed.

Lemma preserves_Store_New (st : Store) (c : floki_Context) (nm : string) :
  preserves (Store_New st c nm).
Proof.
  intros σ. unfold Store_New. destruct st as [id|]; [|apply heap_le_refl].
  run. destruct (store_New id c nm (ext σ)) as [[[s0|] err] e']; simpl;
    [|apply heap_le_refl].
  apply heap_le_alloc, not_elem_of_dom, is_fresh.
Qed.

Lemma preserves_Store_Save (st : Store) (c : floki_Context) (l : loc) (s : Session) :
  preserves (Store_Save st c l s).
Proof.
  intros σ. unfold Store_Save. destruct st as [id|]; [|apply heap_le_refl].
  run. destruct (store_Save id c s (ext σ)) as [err e']. apply heap_le_refl.
Qed.

Lemma preserves_Session_Save (c : floki_Context) (p : ptr) :
  preserves (Session_Save c p).
Proof.
  apply preserves_bind; [apply preserves_deref|].
  intros [l s]. apply preserves_Store_Save.
Qed.

(** On a miss the name is written to the session that [New] has just
    made, not to one that was there before. *)
Lemma preserves_flushSession (c : floki_Context) (p : ptr) :
  preserves (flushSession c p).
Proof.
  apply preserves_bind; [apply preserves_deref|]. intros [l s].
  destruct (dirty s); [|apply preserves_ret].
  apply preserves_bind; [apply preserves_Session_Save|].
  intros [msg|]; [apply preserves_panic | apply preserves_ret].
Qed.

Lemma preserves_Registry_Get (st : Store) (nm : string) :
  preserves (Registry_Get st nm).
Proof.
  intros σ. destruct (sessions (registry σ) !! nm) as [info|] eqn:Hnm.
  - unfold Registry_Get. run. rewrite Hnm. simpl.
    assert (preserves (update (info_s info) (set_store st))) as Hup
      by by apply preserves_update.
    specialize (Hup σ).
    by destruct (update (info_s info) (set_store st) σ) as [[[]|f] σ1].
  - destruct st as [id|].
    + destruct (store_New id (context (registry σ)) nm (ext σ))
        as [[[s0|] err] e'] eqn:HNew.
      * pose proof (Registry_Get_miss σ id nm s0 err e' Hnm HNew) as Heq.
        simpl in Heq. rewrite Heq. simpl.
        apply heap_le_alloc, not_elem_of_dom, is_fresh.
      * rewrite (Registry_Get_miss_nil σ id nm err e' Hnm HNew). simpl.
        apply heap_le_refl.
    + unfold Registry_Get, Store_New. run. rewrite Hnm. simpl.
      apply heap_le_refl.
Qed.

Lemma preserves_Registry_Save_entry (c : floki_Context) (acc : MultiError)
    (entry : string * sessionInfo) :
  preserves (Registry_Save_entry c acc entry).
Proof.
  destruct entry as [nm info].
  apply preserves_bind; [apply preserves_deref|]. intros [l s].
  destruct (store s) as [id|]; [|apply preserves_ret].
  apply preserves_bind; [apply preserves_Store_Save|].
  intros [msg|]; apply preserves_ret.
Qed.

Lemma preserves_Registry_Save_in (c : floki_Context)
    (entries : list (string * sessionInfo)) :
  preserves (Registry_Save_in c entries).
Proof.
  apply preserves_bind.
  - generalize (@nil error). induction entries as [|entry entries IH]; intros acc.
    + apply preserves_ret.
    + apply preserves_bind; [apply preserves_Registry_Save_entry | apply IH].
  - intros [|]; intros; apply preserves_ret.
Qed.

Lemma step_heap_le (σ σ' : State) (o : op) :
  step σ o σ' → heap_le (heap σ) (heap σ').
Proof.
  destruct o; simpl.
  - intros ->. apply preserves_invoke, Session_Flashes_le.
  - intros ->. apply preserves_invoke, Session_AddFlash_le.
  - intros ->. apply preserves_Session_Save.
  - intros ->. by apply preserves_invoke.
  - intros ->. by apply preserves_invoke.
  - intros ->. by apply preserves_invoke.
  - intros ->. apply preserves_invoke, Session_Set_le.
  - intros ->. apply preserves_invoke, Session_Delete_le.
  - intros ->. apply preserves_flushSession.
  - intros ->. apply preserves_Registry_Get.
  - intros (res & entries & _ & Hrun).
    pose proof (preserves_Registry_Save_in c entries σ) as Hle.
    by rewrite Hrun in Hle.
Qed.

Lemma run_nil_inv (σ σ' : State) : run σ [] σ' → σ = σ'.
Proof. by inversion 1. Qed.

Lemma run_cons_inv (σ σ'' : State) (o : op) (os : list op) :
  run σ (o :: os) σ'' → ∃ σ', step σ o σ' ∧ run σ' os σ''.
Proof. inversion 1; eauto. Qed.

Lemma run_heap_le (σ σ' : State) (os : list op) :
  run σ os σ' → heap_le (heap σ) (heap σ').
Proof.
  induction 1 as [σ|σ o σ1 os σ2 Hstep _ IH]; [apply heap_le_refl|].
  eapply heap_le_trans; [by eapply step_heap_le | exact IH].
Qed.

Lemma Session_Save_delegates (c : floki_Context) (σ : State) (l : loc)
    (s : Session) (id : store_ref) :
  heap σ !! l = Some s → store s = Some id →
  Session_Save c (Some l) σ
  = (Return (fst (store_Save id c s (ext σ))),
     with_stores σ (snd (store_Save id c s (ext σ)))
       [CallSave id l (fst (store_Save id c s (ext σ)))]).
Proof.
  intros Hl Hst. unfold Session_Save, Store_Save, deref. run.
  rewrite Hl. simpl. rewrite Hst. run.
  by destruct (store_Save id c s (ext σ)).
Qed.

(** C9. Over any sequence of operations of the package on a request, a
    session keeps its name, and once dirty stays dirty; and [Session.Save]
    is the store's [Save] on the session, with its error as result and the
    heap, hence the dirty flag, as it was. *)
Theorem Session_dirty_monotone_name_fixed (σ : State) (l : loc) (s : Session) :
  heap σ !! l = Some s →
  (∀ os σ', run σ os σ' →
     ∃ s', heap σ' !! l = Some s' ∧ name s' = name s ∧
           (dirty s = true → dirty s' = true)) ∧
  (∀ c id, store s = Some id →
     ∃ σ', Session_Save c (Some l) σ
           = (Return (fst (store_Save id c s (ext σ))), σ') ∧
       heap σ' = heap σ ∧
       calls σ' = calls σ ++ [CallSave id l (fst (store_Save id c s (ext σ)))]).
Proof.
  intros Hl. split.
  - intros os σ' Hrun.
    destruct (run_heap_le _ _ _ Hrun l s Hl) as (s' & Hl' & Hname & Hdirty).
    eauto.
  - intros c id Hst. eexists. split; [by apply Session_Save_delegates|]. done.
Qed.

End Registry_properties.

(** ** The statements on the fake stores *)

Section Fake_request.
#[local] Existing Instance fake_stores.
#[local] Existing Instance fake_fmt.

Lemma Registry_Get_twice_witness :
  ∃ l e σ1 σ2,
    Registry_Get (Some 1) "sid" fresh_request = (Return (Some l, e), σ1) ∧
    Registry_Get (Some 0) "sid" σ1 = (Return (Some l, e), σ2) ∧
    calls σ2 = calls σ1 ∧
    registry σ2 = registry σ1 ∧
    (sessions (registry fresh_request) !! "sid" = None →
       New_calls "sid" (calls σ2) = New_calls "sid" (calls fresh_request) + 1 ∧
       ∃ id, Some 1 = Some id ∧
         e = snd (fst (store_New id (context (registry fresh_request)) "sid"
                         (ext fresh_request)))) ∧
    (is_Some (sessions (registry fresh_request) !! "sid") →
       calls σ2 = calls fresh_request).
Proof.
  apply (Registry_Get_twice fresh_request (Some 1) (Some 0) "sid").
  - apply (bool_decide_unpack _). vm_compute. exact I.
  - intros _. exists 1, (NewSession (Some 1) "sid"). split; reflexivity.
Defined.

(** The first [Get] of "sid" returns the decoding error of store [1]; the
    second returns the same pointer and the same error, and the log holds the
    single [New] call. *)
Example Registry_Get_failing_New_twice :
  Registry_Get (Some 1) "sid" fresh_request
  = (Return (Some 1%positive, Some "securecookie: the value is not valid"),
     one_session) ∧
  fst (Registry_Get (Some 1) "sid" one_session)
  = Return (Some 1%positive, Some "securecookie: the value is not valid").
Proof. split; vm_compute; reflexivity. Qed.

Example Registry_Get_failing_New_once :
  calls (snd (Registry_Get (Some 1) "sid" one_session)) = [CallNew 1 "sid"].
Proof. vm_compute. reflexivity. Qed.

(** A store that returns no session breaks the caching: the call panics
    before the entry is recorded, and a second call asks the store again. *)
Example Registry_Get_nil_session :
  fst (Registry_Get (Some 2) "sid" fresh_request) = Panic NilDereference ∧
  calls (snd (Registry_Get (Some 2) "sid"
                (snd (Registry_Get (Some 2) "sid" fresh_request))))
  = [CallNew 2 "sid"; CallNew 2 "sid"].
Proof. split; vm_compute; reflexivity. Qed.

Lemma Registry_Get_rebinds_store_witness :
  ∃ σ',
    Registry_Get (Some 0) "sid" one_session
    = (Return (Some 1%positive, Some "securecookie: the value is not valid"), σ') ∧
    heap σ' = <[1%positive := set_store (Some 0) (NewSession (Some 1) "sid")]>
                (heap one_session) ∧
    (∃ s', heap σ' !! 1%positive = Some s' ∧ store s' = Some 0 ∧
           Values s' = Values (NewSession (Some 1) "sid") ∧
           name s' = name (NewSession (Some 1) "sid") ∧
           dirty s' = dirty (NewSession (Some 1) "sid")) ∧
    (∀ l', l' ≠ 1%positive → heap σ' !! l' = heap one_session !! l') ∧
    registry σ' = registry one_session ∧ ext σ' = ext one_session ∧
    calls σ' = calls one_session.
Proof.
  apply (Registry_Get_rebinds_store one_session (Some 0) "sid"
           {| info_s := Some 1%positive;
              info_e := Some "securecookie: the value is not valid" |}
           1%positive (NewSession (Some 1) "sid"));
    vm_compute; reflexivity.
Defined.

(** After the rebinding, [Session.Save] goes to the new store. *)
Example Session_Save_after_rebinding :
  let σ := snd (Registry_Get (Some 0) "sid" one_session) in
  fst (Session_Save 7 (Some 1%positive) σ) = Return None ∧
  calls (snd (Session_Save 7 (Some 1%positive) σ))
  = [CallNew 1 "sid"; CallSave 0 1%positive None].
Proof. split; vm_compute; reflexivity. Qed.

Example three_sessions_tracked :
  sessions (registry three_sessions) !! "a"
  = Some {| info_s := Some 1%positive; info_e := None |} ∧
  sessions (registry three_sessions) !! "b"
  = Some {| info_s := Some 2%positive;
            info_e := Some "securecookie: the value is not valid" |} ∧
  sessions (registry three_sessions) !! "c"
  = Some {| info_s := Some 3%positive; info_e := None |} ∧
  size (sessions (registry three_sessions)) = 3 ∧
  store <$> heap three_sessions !! 1%positive = Some (Some 0) ∧
  store <$> heap three_sessions !! 2%positive = Some (Some 1) ∧
  store <$> heap three_sessions !! 3%positive = Some None.
Proof. vm_compute. repeat split. Qed.

Lemma Registry_Save_all_witness :
  (∃ res σ', Registry_Save 7 three_sessions res σ') ∧
  ∀ res σ', Registry_Save 7 three_sessions res σ' →
    ∃ entries ts f cs e',
      entries ≡ₚ map_to_list (sessions (registry three_sessions)) ∧
      Forall2 (tracks (heap three_sessions)) entries ts ∧
      spec_save_all 7 ts (ext three_sessions) = (f, cs, e') ∧
      res = Return (nil_or f) ∧
      (res = Return None ↔ f = []) ∧
      σ' = with_stores three_sessions e' cs ∧
      omap call_target cs = omap due ts ∧
      length cs = length (omap due ts) ∧
      (∀ nm l s, (nm, l, s) ∈ ts → store s = None →
         Some ("sessions: missing store for session " +:+ quote nm) ∈ f) ∧
      (∀ id l msg, CallSave id l (Some msg) ∈ cs →
         ∃ nm s, (nm, l, s) ∈ ts ∧ store s = Some id ∧
                 Some ("sessions: error saving session " +:+ quote nm
                       +:+ " -- " +:+ msg) ∈ f) ∧
      Forall (fun x => ∃ nm l s, (nm, l, s) ∈ ts ∧
                (x = Some ("sessions: missing store for session " +:+ quote nm) ∨
                 ∃ msg, x = Some ("sessions: error saving session " +:+ quote nm
                                  +:+ " -- " +:+ msg))) f ∧
      length f = length (filter has_no_store ts) + length (filter Save_failed cs).
Proof.
  apply (Registry_Save_all 7 three_sessions).
  apply (bool_decide_unpack _). vm_compute. exact I.
Defined.

(** One session without a store, one whose save fails, one whose save
    succeeds: both failures are reported, the third session is saved all
    the same, and the composite error renders the first failure and
    "(and 1 other error)". *)
Example Registry_Save_three_sessions :
  let entries :=
    [("c", {| info_s := Some 3%positive; info_e := None |});
     ("b", {| info_s := Some 2%positive;
              info_e := Some "securecookie: the value is not valid" |});
     ("a", {| info_s := Some 1%positive; info_e := None |})] in
  let '(res, σ') := Registry_Save_in 7 entries three_sessions in
  res = Return (Some [Some ("sessions: missing store for session " +:+ quote "c");
                      Some ("sessions: error saving session " +:+ quote "b"
                            +:+ " -- disk full")]) ∧
  option_map MultiError_Error (nil_or [Some (missing_store "c");
                                       Some (error_saving "b" "disk full")])
  = Some ("sessions: missing store for session " +:+ quote "c"
          +:+ " (and 1 other error)") ∧
  calls σ' = calls three_sessions
             ++ [CallSave 1 2%positive (Some "disk full"); CallSave 0 1%positive None] ∧
  ext σ' = 1.
Proof. vm_compute. repeat split. Qed.

Lemma Session_dirty_monotone_name_fixed_witness :
  (∀ os σ', run one_session os σ' →
     ∃ s', heap σ' !! 1%positive = Some s' ∧
           name s' = name (NewSession (Some 1) "sid") ∧
           (dirty (NewSession (Some 1) "sid") = true → dirty s' = true)) ∧
  (∀ c id, store (NewSession (Some 1) "sid") = Some id →
     ∃ σ', Session_Save c (Some 1%positive) one_session
           = (Return (fst (store_Save id c (NewSession (Some 1) "sid")
                             (ext one_session))), σ') ∧
       heap σ' = heap one_session ∧
       calls σ' = calls one_session
                  ++ [CallSave id 1%positive
                        (fst (store_Save id c (NewSession (Some 1) "sid")
                                (ext one_session)))]).
Proof.
  apply (Session_dirty_monotone_name_fixed one_session 1%positive
           (NewSession (Some 1) "sid")).
  vm_compute. reflexivity.
Defined.

(** The flash operations leave the dirty flag false, so [flushSession] does
    not save a session that was only given a flash, nor one whose flashes
    were only read; after a [Set] it does. *)
Example flushSession_after_AddFlash :
  let p := Some 1%positive in
  let flashed := snd (invoke p (Session_AddFlash (VString "saved") []) one_session) in
  let read := snd (invoke p (Session_Flashes []) flashed) in
  let set := snd (invoke p (Session_Set (KString "user") (VInt 7)) one_session) in
  calls (snd (flushSession 7 p flashed)) = [CallNew 1 "sid"] ∧
  calls (snd (flushSession 7 p read)) = [CallNew 1 "sid"] ∧
  calls (snd (flushSession 7 p set))
  = [CallNew 1 "sid"; CallSave 1 1%positive (Some "disk full")].
Proof. vm_compute. repeat split. Qed.

(** A session made dirty by [Set] is still dirty after it was saved, read,
    and its flashes were consumed. *)
Example dirty_after_Save :
  let ops := [OpSet (Some 1%positive) (KString "user") (VInt 7);
              OpSave 7 (Some 1%positive);
              OpGet (Some 1%positive) (KString "user");
              OpFlashes (Some 1%positive) []] in
  ∀ σ', run one_session ops σ' →
    dirty <$> heap σ' !! 1%positive = Some true.
Proof.
  intros ops σ' Hrun. subst ops.
  do 4 (apply run_cons_inv in Hrun as (? & Hstep & Hrun);
        simpl in Hstep; subst).
  apply run_nil_inv in Hrun as <-.
  vm_compute. reflexivity.
Qed.

End Fake_request.

(** * Further properties *)

(** ** Values and flashes *)

(** X1. How [Set] and [Delete] compose for keys that the runtime can hash
    and that are not NaN, on a session whose map is allocated: the last
    [Set] wins, [Delete] undoes a [Set] as if it had not happened, [Delete]
    twice is [Delete] once, and writes to different keys commute. *)
Theorem Set_Delete_full_compose (s : Session_full) (A : arrays) (kv kv' v v' : dyn)
    (k k' : hkey) (m : gmap hkey dyn) :
  full_Values s = Some m →
  hash_key kv = Hashed k →
  hash_key kv' = Hashed k' →
  let st := (s, A) in
  snd (Session_Set_full kv v' (snd (Session_Set_full kv v st)))
  = snd (Session_Set_full kv v' st) ∧
  snd (Session_Delete_full kv (snd (Session_Set_full kv v st)))
  = snd (Session_Delete_full kv st) ∧
  snd (Session_Delete_full kv (snd (Session_Delete_full kv st)))
  = snd (Session_Delete_full kv st) ∧
  (k ≠ k' →
     snd (Session_Set_full kv v (snd (Session_Set_full kv' v' st)))
     = snd (Session_Set_full kv' v' (snd (Session_Set_full kv v st))) ∧
     snd (Session_Set_full kv v (snd (Session_Delete_full kv' st)))
     = snd (Session_Delete_full kv' (snd (Session_Set_full kv v st)))).
Proof.
  intros Hm Hk Hk' st. unfold st.
  assert (∀ s0 m0 kv0 k0 x, full_Values s0 = Some m0 → hash_key kv0 = Hashed k0 →
            snd (Session_Set_full kv0 x (s0, A))
            = (with_dirty true (with_Values (Some (<[k0 := x]> m0)) s0), A)) as HS
    by (intros; by erewrite Set_full_hashed).
  assert (∀ s0 kv0 k0, hash_key kv0 = Hashed k0 →
            snd (Session_Delete_full kv0 (s0, A))
            = (with_dirty true (with_Values (delete k0 <$> full_Values s0) s0), A)) as HD
    by (intros; by erewrite Delete_full_hashed).
  rewrite !(HS s m kv k _ Hm Hk), !(HS s m kv' k' _ Hm Hk'),
    !(HD s kv k Hk), !(HD s kv' k' Hk').
  rewrite (HS (with_dirty true (with_Values (Some (<[k := v]> m)) s))
             (<[k := v]> m) kv k v' eq_refl Hk),
    (HS (with_dirty true (with_Values (Some (<[k' := v']> m)) s))
       (<[k' := v']> m) kv k v eq_refl Hk),
    (HS (with_dirty true (with_Values (Some (<[k := v]> m)) s))
       (<[k := v]> m) kv' k' v' eq_refl Hk'),
    (HS (with_dirty true (with_Values (delete k' <$> full_Values s) s))
       (delete k' m) kv k v ltac:(simpl; by rewrite Hm) Hk),
    !(HD _ kv k Hk), !(HD _ kv' k' Hk').
  unfold with_dirty, with_Values. simpl. rewrite Hm. simpl.
  split; [by rewrite insert_insert_eq|].
  split; [by rewrite delete_insert_eq|].
  split; [by rewrite delete_delete_eq|].
  intros Hne. split.
  - by rewrite insert_insert_ne.
  - by rewrite delete_insert_ne.
Qed.

Lemma Set_Delete_full_compose_witness :
  let st := (NewSession_full None "sid", (∅ : arrays)) in
  let kv := DInt 1 in
  let kv' := DString "a" in
  snd (Session_Set_full kv (DInt 2) (snd (Session_Set_full kv (DInt 3) st)))
  = snd (Session_Set_full kv (DInt 2) st) ∧
  snd (Session_Delete_full kv (snd (Session_Set_full kv (DInt 3) st)))
  = snd (Session_Delete_full kv st) ∧
  snd (Session_Delete_full kv (snd (Session_Delete_full kv st)))
  = snd (Session_Delete_full kv st) ∧
  (HInt 1 ≠ HString "a" →
     snd (Session_Set_full kv (DInt 3) (snd (Session_Set_full kv' (DInt 2) st)))
     = snd (Session_Set_full kv' (DInt 2) (snd (Session_Set_full kv (DInt 3) st))) ∧
     snd (Session_Set_full kv (DInt 3) (snd (Session_Delete_full kv' st)))
     = snd (Session_Delete_full kv' (snd (Session_Set_full kv (DInt 3) st)))).
Proof.
  apply (Set_Delete_full_compose (NewSession_full None "sid") ∅
           (DInt 1) (DString "a") (DInt 3) (DInt 2) (HInt 1) (HString "a") ∅);
    reflexivity.
Defined.

(** X2. When the flash key holds a value that is not a flash sequence,
    [Flashes] panics only after it has deleted the key: the value is gone, a
    second [Flashes] returns the empty sequence and [AddFlash] works again.
    [AddFlash] in the same situation panics before it writes, and leaves the
    session as it was. *)
Theorem Session_Flashes_deletes_before_panic (s : Session) (vars : list string)
    (v : value) :
  Values s !! KString (flash_key vars) = Some v →
  is_slice v = false →
  let s' := snd (Session_Flashes vars s) in
  fst (Session_Flashes vars s) = Panic TypeAssertion ∧
  s' = set_Values (delete (KString (flash_key vars))) s ∧
  Session_Flashes vars s' = (Return [], s') ∧
  (∀ x, fst (Session_AddFlash x vars s') = Return tt) ∧
  (∀ x, Session_AddFlash x vars s = (Panic TypeAssertion, s)).
Proof.
  intros Hv Hns s'.
  assert (Session_Flashes vars s
          = (Panic TypeAssertion, set_Values (delete (KString (flash_key vars))) s)) as HF.
  { unfold Session_Flashes. rewrite Hv. by destruct v. }
  assert (s' = set_Values (delete (KString (flash_key vars))) s) as Hs'
    by (unfold s'; by rewrite HF).
  assert (Values s' !! KString (flash_key vars) = None) as Habs
    by (rewrite Hs'; simpl; apply lookup_delete_eq).
  split; [by rewrite HF|]. split; [done|]. split; [|split].
  - by apply Session_Flashes_absent.
  - intros x. unfold Session_AddFlash. by rewrite Habs.
  - intros x. unfold Session_AddFlash. rewrite Hv. by destruct v.
Qed.

Lemma Session_Flashes_deletes_before_panic_witness :
  let s := snd (Session_Set (KString "_flash") (VInt 3) (NewSession None "sid")) in
  let s' := snd (Session_Flashes [] s) in
  fst (Session_Flashes [] s) = Panic TypeAssertion ∧
  s' = set_Values (delete (KString (flash_key []))) s ∧
  Session_Flashes [] s' = (Return [], s') ∧
  (∀ x, fst (Session_AddFlash x [] s') = Return tt) ∧
  (∀ x, Session_AddFlash x [] s = (Panic TypeAssertion, s)).
Proof.
  apply (Session_Flashes_deletes_before_panic
           (snd (Session_Set (KString "_flash") (VInt 3) (NewSession None "sid")))
           [] (VInt 3)); reflexivity.
Defined.

Section More_flash_properties.
Context `{GoRuntime}.

(** X3. Any number of flashes: on a session whose map is allocated and
    whose flash key is absent or holds a flash slice, adding the values
    [vals] one after the other and then calling [Flashes] returns a slice
    whose elements are what was stored before followed by [vals] in the
    order added; the key is then absent, the other entries of the map and
    the dirty flag are as they were, and every slice that is on another
    backing array than the stored flashes has the elements it had. *)
Theorem AddFlash_full_all_Flashes (vals : list dyn) (vars : list string) :
  ∀ (s : Session_full) (A : arrays) (m : gmap hkey dyn),
  full_Values s = Some m →
  flash_slot_valid A s vars →
  let st := AddFlash_full_all vals vars (s, A) in
  let st' := snd (Session_Flashes_full vars st) in
  (∃ h, fst (Session_Flashes_full vars st) = Ok h ∧
        slice_elems (snd st') h = slice_elems A (flash_slice s vars) ++ vals) ∧
  full_Values (fst st') = Some (delete (HString (flash_key vars)) m) ∧
  full_dirty (fst st') = full_dirty s ∧
  (∀ g, slice_ok A g → ¬ share_array (flash_slice s vars) g →
        slice_elems (snd st') g = slice_elems A g ∧ slice_ok (snd st') g).
Proof.
  induction vals as [|v vals IH]; intros s A m Hm Hok st st'.
  - unfold st', st, AddFlash_full_all. cbn [foldl]. rewrite app_nil_r.
    pose proof Hok as Hok'. unfold flash_slot_valid in Hok'.
    unfold flash_slice.
    destruct (flash_slot s vars) as [[| | | | |h]|] eqn:E; try done.
    + rewrite (Flashes_full_slice s A vars h E). cbn [fst snd].
      split; [by exists h|]. split; [simpl; by rewrite Hm|]. done.
    + rewrite (Flashes_full_absent s A vars E). cbn [fst snd].
      split; [by exists nil_slice|]. split; [|done].
      rewrite Hm, delete_id; [done|].
      unfold flash_slot in E. by rewrite Hm in E.
  - destruct (AddFlash_full_after s A vars v m Hm Hok)
      as (s1 & A1 & m1 & h1 & Hrun1 & Hm1 & Hm1' & Hd1 & Hslot1 & Hok1 & Hel1
          & Hh1 & HA1).
    assert (flash_slot_valid A1 s1 vars) as Hv1
      by (unfold flash_slot_valid; by rewrite Hslot1).
    assert (flash_slice s1 vars = h1) as Hfs1
      by (unfold flash_slice; by rewrite Hslot1).
    assert (st = AddFlash_full_all vals vars (s1, A1)) as Hst
      by (unfold st, AddFlash_full_all; cbn [foldl]; by rewrite Hrun1).
    destruct (IH s1 A1 m1 Hm1 Hv1) as ((h & Hfl & Hel) & Hmap & Hdirty & Hframe).
    unfold st'. rewrite Hst, Hfs1 in *.
    split; [exists h; split; [done|]; by rewrite Hel, Hel1, <- app_assoc|].
    split; [by rewrite Hmap, Hm1', delete_insert_eq|].
    split; [congruence|].
    intros g Hg Hsh.
    destruct (append_frame A (flash_slice s vars) g v Hg
                (not_share_not_overwrites _ _ Hsh)) as [Hge Hgok].
    rewrite <- HA1 in Hge, Hgok.
    destruct (Hframe g Hgok) as [Hge' Hgok'].
    { rewrite Hh1. by apply append_share. }
    split; [congruence|done].
Qed.

(** X4. Flash messages and the other keys: [AddFlash] and [Flashes] on a
    flash key leave what [Get] returns for any other key as it was (for a
    slice, the same header), and the elements of any slice as they were
    unless the [append] writes over one of them; [Set] and [Delete] on
    another key leave what [Flashes] returns and every array as they
    were. *)
Theorem flash_full_frame (s : Session_full) (A : arrays) (vars : list string)
    (kv x v : dyn) :
  hash_key kv ≠ Hashed (HString (flash_key vars)) →
  fst (Session_Get_full kv (snd (Session_AddFlash_full x vars (s, A))))
  = fst (Session_Get_full kv (s, A)) ∧
  fst (Session_Get_full kv (snd (Session_Flashes_full vars (s, A))))
  = fst (Session_Get_full kv (s, A)) ∧
  snd (snd (Session_Flashes_full vars (s, A))) = A ∧
  (∀ g, slice_ok A g → ¬ overwrites (flash_slice s vars) g →
        slice_elems (snd (snd (Session_AddFlash_full x vars (s, A)))) g = slice_elems A g) ∧
  fst (Session_Flashes_full vars (snd (Session_Set_full kv v (s, A))))
  = fst (Session_Flashes_full vars (s, A)) ∧
  snd (snd (Session_Set_full kv v (s, A))) = A ∧
  fst (Session_Flashes_full vars (snd (Session_Delete_full kv (s, A))))
  = fst (Session_Flashes_full vars (s, A)) ∧
  snd (snd (Session_Delete_full kv (s, A))) = A.
Proof.
  intros Hne.
  assert (∀ t B, (∀ k, Hashed k = hash_key kv →
                    map_lookup (full_Values t) (Hashed k)
                    = map_lookup (full_Values s) (Hashed k)) →
            fst (Session_Get_full kv (t, B)) = fst (Session_Get_full kv (s, A))) as Hget.
  { intros t B Hsame. unfold Session_Get_full.
    destruct (hash_key kv) as [k| |] eqn:Hk; cbn [fst];
      [|by destruct (full_Values t), (full_Values s)|done].
    by rewrite (Hsame k eq_refl). }
  split; [|split; [|split; [|split; [|split; [|split; [|split]]]]]].
  - unfold Session_AddFlash_full. destruct (full_Values s) as [m|] eqn:Hm; cbn [map_lookup].
    + destruct (m !! HString (flash_key vars)) as [[| | | | |h]|]; try done;
        destruct (append _ x A) as [h' A'];
        apply Hget; intros k Hk; simpl;
        apply lookup_insert_ne; congruence.
    + destruct (append _ x A) as [h' A']. apply Hget. intros k Hk.
      cbn [fst snd]. by rewrite Hm.
  - unfold Session_Flashes_full.
    destruct (map_lookup (full_Values s) (Hashed (HString (flash_key vars))))
      as [w|]; [|done].
    assert (fst (Session_Get_full kv (with_Values (delete (HString (flash_key vars))
                                             <$> full_Values s) s, A))
            = fst (Session_Get_full kv (s, A))) as Hdel.
    { apply Hget. intros k Hk. simpl.
      destruct (full_Values s) as [m|]; [|done]. simpl.
      apply lookup_delete_ne. congruence. }
    by destruct w.
  - unfold Session_Flashes_full.
    by destruct (map_lookup (full_Values s) _) as [[]|].
  - intros g Hg Hov. by apply AddFlash_full_elems.
  - unfold Session_Set_full. destruct (full_Values s) as [m|] eqn:Hm; [|done].
    destruct (hash_key kv) as [k| |] eqn:Hk; try done;
      apply Flashes_full_slot; unfold flash_slot; simpl; rewrite Hm; simpl.
    + apply lookup_insert_ne. congruence.
    + by apply lookup_insert_ne.
  - unfold Session_Set_full. destruct (full_Values s); [|done].
    by destruct (hash_key kv).
  - unfold Session_Delete_full.
    destruct (hash_key kv) as [k| |] eqn:Hk; try done;
      apply Flashes_full_slot; unfold flash_slot; simpl;
      destruct (full_Values s) as [m|]; try done; simpl.
    apply lookup_delete_ne. congruence.
  - unfold Session_Delete_full. by destruct (hash_key kv).
Qed.

End More_flash_properties.

Section More_fake_flashes.
#[local] Existing Instance fake_runtime.

Lemma AddFlash_full_all_Flashes_witness :
  let s := fst fake_flashes in
  let A := snd fake_flashes in
  let vars := ["notice"] in
  let vals := [DString "saved"; DInt 2; DBool true] in
  let st := AddFlash_full_all vals vars (s, A) in
  let st' := snd (Session_Flashes_full vars st) in
  (∃ h, fst (Session_Flashes_full vars st) = Ok h ∧
        slice_elems (snd st') h = slice_elems A (flash_slice s vars) ++ vals) ∧
  full_Values (fst st')
  = Some (delete (HString (flash_key vars)) (default ∅ (full_Values s))) ∧
  full_dirty (fst st') = full_dirty s ∧
  (∀ g, slice_ok A g → ¬ share_array (flash_slice s vars) g →
        slice_elems (snd st') g = slice_elems A g ∧ slice_ok (snd st') g).
Proof.
  apply (AddFlash_full_all_Flashes [DString "saved"; DInt 2; DBool true] ["notice"]
           (fst fake_flashes) (snd fake_flashes)
           (default ∅ (full_Values (fst fake_flashes)))).
  - vm_compute. reflexivity.
  - vm_compute. lia.
Defined.

Lemma flash_full_frame_witness :
  let s := fst fake_flashes in
  let A := snd fake_flashes in
  let vars := ["notice"] in
  let kv := DString "user" in
  let x := DInt 1 in
  let v := DFloat 0 in
  fst (Session_Get_full kv (snd (Session_AddFlash_full x vars (s, A))))
  = fst (Session_Get_full kv (s, A)) ∧
  fst (Session_Get_full kv (snd (Session_Flashes_full vars (s, A))))
  = fst (Session_Get_full kv (s, A)) ∧
  snd (snd (Session_Flashes_full vars (s, A))) = A ∧
  (∀ g, slice_ok A g → ¬ overwrites (flash_slice s vars) g →
        slice_elems (snd (snd (Session_AddFlash_full x vars (s, A)))) g = slice_elems A g) ∧
  fst (Session_Flashes_full vars (snd (Session_Set_full kv v (s, A))))
  = fst (Session_Flashes_full vars (s, A)) ∧
  snd (snd (Session_Set_full kv v (s, A))) = A ∧
  fst (Session_Flashes_full vars (snd (Session_Delete_full kv (s, A))))
  = fst (Session_Flashes_full vars (s, A)) ∧
  snd (snd (Session_Delete_full kv (s, A))) = A.
Proof.
  apply (flash_full_frame (fst fake_flashes) (snd fake_flashes) ["notice"]
           (DString "user") (DInt 1) (DFloat 0)).
  vm_compute. discriminate.
Defined.

End More_fake_flashes.

(** X5. The rendering of a composite error depends on its non-nil slots
    only: two composites with the same non-nil components in the same order
    render alike, so nil slots anywhere, and in any number, change nothing. *)
Theorem MultiError_Error_nil_slots (m1 m2 : MultiError) :
  non_nil m1 = non_nil m2 → MultiError_Error m1 = MultiError_Error m2.
Proof.
  intros Heq. unfold MultiError_Error.
  by rewrite !MultiError_scan_spec, Heq.
Qed.

Lemma MultiError_Error_nil_slots_witness :
  MultiError_Error [None; Some "a"; None; None; Some "b"; Some "c"]
  = MultiError_Error [Some "a"; Some "b"; None; Some "c"].
Proof.
  apply (MultiError_Error_nil_slots [None; Some "a"; None; None; Some "b"; Some "c"]
           [Some "a"; Some "b"; None; Some "c"]).
  reflexivity.
Defined.

(** ** Saving one session *)

Section Request_properties.
Context `{StoreEnv} `{GoFmt}.

Ltac run := unfold mbind, M_bind, mret, M_ret, gets, modify, panic; simpl.

(** X6. [flushSession] saves a session exactly when it is dirty: a session
    that is not dirty is left alone and no store is called; a dirty session
    is passed to its store's [Save] once, and the call returns when the save
    succeeded and ends the process when it failed; a dirty session without a
    store panics. The session itself is not changed, so it is still dirty
    afterwards. *)
Theorem flushSession_saves_iff_dirty (c : floki_Context) (σ : State) (l : loc)
    (s : Session) :
  heap σ !! l = Some s →
  (dirty s = false → flushSession c (Some l) σ = (Return tt, σ)) ∧
  (dirty s = true → store s = None →
     flushSession c (Some l) σ = (Panic NilDereference, σ)) ∧
  (dirty s = true → ∀ id, store s = Some id →
     flushSession c (Some l) σ
     = (match fst (store_Save id c s (ext σ)) with
        | None => Return tt
        | Some _ => Panic Fatal
        end,
        with_stores σ (snd (store_Save id c s (ext σ)))
          [CallSave id l (fst (store_Save id c s (ext σ)))])).
Proof.
  intros Hl. unfold flushSession, deref. run. rewrite Hl. split; [|split].
  - intros ->. done.
  - intros -> Hst. unfold Session_Save, Store_Save, deref. run.
    rewrite Hl. simpl. by rewrite Hst.
  - intros -> id Hst.
    rewrite (Session_Save_delegates c σ l s id Hl Hst).
    by destruct (store_Save id c s (ext σ)) as [[msg|] e'].
Qed.

(** X7. A session without a store cannot be saved on its own:
    [Session.Save] panics on the nil store (as it does on a nil session) and
    calls nothing, where [Registry.Save], visiting the same session, returns
    and reports the missing store. *)
Theorem Session_Save_without_store (c : floki_Context) (σ : State) (l : loc)
    (s : Session) (nm : string) (e : error) :
  heap σ !! l = Some s →
  store s = None →
  Session_Save c None σ = (Panic NilDereference, σ) ∧
  Session_Save c (Some l) σ = (Panic NilDereference, σ) ∧
  Registry_Save_in c [(nm, {| info_s := Some l; info_e := e |})] σ
  = (Return (Some [Some (missing_store nm)]), σ).
Proof.
  intros Hl Hst. split; [done|]. split.
  - unfold Session_Save, Store_Save, deref. run. rewrite Hl. simpl. by rewrite Hst.
  - unfold Registry_Save_in, Registry_Save_loop, Registry_Save_entry, deref. run.
    rewrite Hl. simpl. by rewrite Hst.
Qed.

(** ** Looking up sessions *)

(** X8. A lookup that fails caches nothing. For a name that is not tracked,
    [Registry.Get] with a nil store panics and changes nothing; with a store
    whose [New] returns no session it panics after that one [New] call, with
    heap and registry as they were, so the name is still not tracked and the
    next lookup asks the store again. *)
Theorem Registry_Get_failure_not_cached (σ : State) (nm : string) :
  sessions (registry σ) !! nm = None →
  Registry_Get None nm σ = (Panic NilDereference, σ) ∧
  ∀ id, fst (fst (store_New id (context (registry σ)) nm (ext σ))) = None →
    ∃ σ', Registry_Get (Some id) nm σ = (Panic NilDereference, σ') ∧
      registry σ' = registry σ ∧ heap σ' = heap σ ∧
      calls σ' = calls σ ++ [CallNew id nm].
Proof.
  intros Hnm. split.
  - unfold Registry_Get, Store_New. run. by rewrite Hnm.
  - intros id Hnil.
    destruct (store_New id (context (registry σ)) nm (ext σ)) as [[os err] e'] eqn:HNew.
    simpl in Hnil. subst os.
    eexists. split; [by apply (Registry_Get_miss_nil σ id nm err e')|]. done.
Qed.

(** X9. A lookup that returns touches nothing but its own session: the
    entries of all other names, every session other than the one returned,
    and the registry's context are as before; and the session returned is a
    session on the heap whose [store] field is the store passed in. *)
Theorem Registry_Get_frame (σ σ1 : State) (st : Store) (nm : string)
    (p : ptr) (e : error) :
  Registry_Get st nm σ = (Return (p, e), σ1) →
  (∀ nm', nm' ≠ nm → sessions (registry σ1) !! nm' = sessions (registry σ) !! nm') ∧
  (∀ l s, heap σ !! l = Some s → p ≠ Some l → heap σ1 !! l = Some s) ∧
  context (registry σ1) = context (registry σ) ∧
  (∃ l s, p = Some l ∧ heap σ1 !! l = Some s ∧ store s = st ∧
          sessions (registry σ1) !! nm = Some {| info_s := Some l; info_e := e |}).
Proof.
  intros Hget. destruct (sessions (registry σ) !! nm) as [info|] eqn:Hnm.
  - destruct (Registry_Get_hit_inv _ _ _ _ _ _ _ Hnm Hget)
      as (l & s & Hp & Hl & -> & -> & ->).
    simpl. split; [done|]. split; [|split; [done|]].
    + intros l' s' Hl' Hne. rewrite lookup_insert_ne; [done | congruence].
    + exists l, (set_store st s). rewrite lookup_insert_eq, Hnm.
      split; [done|]. split; [done|]. split; [done|].
      f_equal. destruct info; simpl in *; congruence.
  - destruct (Registry_Get_miss_inv _ _ _ _ _ _ Hnm Hget)
      as (id & s0 & e' & -> & HNew & Heq).
    rewrite Heq in Hget. injection Hget as <- <-. simpl.
    split; [|split; [|split; [done|]]].
    + intros nm' Hne. by rewrite lookup_insert_ne.
    + intros l' s' Hl' Hne. rewrite lookup_insert_ne; [done | congruence].
    + eexists _, _. rewrite !lookup_insert_eq. done.
Qed.

(** ** What every reachable registry satisfies *)

Lemma stable_ret {A} (a : A) : stable (mret a).
Proof. by intros σ. Qed.

Lemma stable_panic {A} (f : fault) : stable (@panic _ A f).
Proof. by intros σ. Qed.

Lemma stable_gets {A} (f : State → A) : stable (gets f).
Proof. by intros σ. Qed.

Lemma stable_modify (f : State → State) :
  (∀ σ, registry (f σ) = registry σ) → stable (modify f).
Proof. intros Hf σ. apply Hf. Qed.

Lemma stable_bind {A B} (m : M A) (k : A → M B) :
  stable m → (∀ a, stable (k a)) → stable (m ≫= k).
Proof.
  intros Hm Hk σ. unfold mbind, M_bind.
  specialize (Hm σ). destruct (m σ) as [[a|f] σ1]; simpl in *; [|done].
  by rewrite Hk.
Qed.

Lemma stable_deref (p : ptr) : stable (deref p).
Proof.
  intros σ. unfold deref. destruct p as [l|]; [|done]. by destruct (heap σ !! l).
Qed.

Lemma stable_invoke {A} (p : ptr) (m : method A) : stable (invoke p m).
Proof.
  apply stable_bind; [apply stable_deref|]. intros [l s].
  destruct (m s) as [[a|f] s'].
  - apply stable_bind; [by apply stable_modify | intros; apply stable_ret].
  - apply stable_bind; [by apply stable_modify | intros; apply stable_panic].
Qed.

Lemma stable_Store_Save (st : Store) (c : floki_Context) (l : loc) (s : Session) :
  stable (Store_Save st c l s).
Proof.
  intros σ. unfold Store_Save. destruct st as [id|]; [|done].
  run. by destruct (store_Save id c s (ext σ)).
Qed.

Lemma stable_Session_Save (c : floki_Context) (p : ptr) : stable (Session_Save c p).
Proof.
  apply stable_bind; [apply stable_deref|]. intros [l s]. apply stable_Store_Save.
Qed.

Lemma stable_flushSession (c : floki_Context) (p : ptr) : stable (flushSession c p).
Proof.
  apply stable_bind; [apply stable_deref|]. intros [l s].
  destruct (dirty s); [|apply stable_ret].
  apply stable_bind; [apply stable_Session_Save|].
  intros [msg|]; [apply stable_panic | apply stable_ret].
Qed.

Lemma stable_Registry_Save_in (c : floki_Context)
    (entries : list (string * sessionInfo)) :
  stable (Registry_Save_in c entries).
Proof.
  apply stable_bind.
  - generalize (@nil error). induction entries as [|[nm info] entries IH]; intros acc.
    + apply stable_ret.
    + apply stable_bind; [|apply IH].
      apply stable_bind; [apply stable_deref|]. intros [l s].
      destruct (store s) as [id|]; [|apply stable_ret].
      apply stable_bind; [apply stable_Store_Save|].
      intros [msg|]; apply stable_ret.
  - intros [|]; intros; apply stable_ret.
Qed.

Lemma registry_wf_later (σ σ' : State) :
  registry σ' = registry σ → heap_le (heap σ) (heap σ') →
  registry_wf σ → registry_wf σ'.
Proof.
  intros Hreg Hle Hwf. unfold registry_wf in *. rewrite Hreg.
  eapply map_Forall_impl; [exact Hwf|].
  intros nm info. unfold tracked_ok. simpl.
  destruct (info_s info) as [l|]; [|done].
  rewrite !bool_decide_eq_true. intros [s Hs].
  destruct (Hle l s Hs) as (s' & Hs' & _). eauto.
Qed.

Lemma registry_inj_later (σ σ' : State) :
  registry σ' = registry σ → registry_inj σ → registry_inj σ'.
Proof. unfold registry_inj. by intros ->. Qed.

Lemma Registry_Get_panic (σ σ1 : State) (st : Store) (nm : string) (f : fault) :
  Registry_Get st nm σ = (Panic f, σ1) → registry σ1 = registry σ.
Proof.
  destruct (sessions (registry σ) !! nm) as [info|] eqn:Hnm.
  - unfold Registry_Get. run. rewrite Hnm. simpl.
    destruct (update (info_s info) (set_store st) σ) as [[[]|f'] σ'] eqn:Hup;
      [discriminate|].
    intros [= _ <-]. revert Hup. unfold update, deref. run.
    destruct (info_s info) as [l|]; [|by intros [= _ <-]].
    destruct (heap σ !! l); [discriminate | by intros [= _ <-]].
  - destruct st as [id|].
    + destruct (store_New id (context (registry σ)) nm (ext σ))
        as [[[s0|] err] e'] eqn:HNew.
      * pose proof (Registry_Get_miss σ id nm s0 err e' Hnm HNew) as Heq.
        simpl in Heq. rewrite Heq. discriminate.
      * rewrite (Registry_Get_miss_nil σ id nm err e' Hnm HNew). by intros [= _ <-].
    + unfold Registry_Get, Store_New. run. rewrite Hnm. by intros [= _ <-].
Qed.

Lemma Registry_Get_inj (σ σ1 : State) (st : Store) (nm : string)
    (p : ptr) (e : error) :
  registry_wf σ → registry_inj σ →
  Registry_Get st nm σ = (Return (p, e), σ1) →
  registry_inj σ1.
Proof.
  intros Hwf Hinj Hget.
  destruct (sessions (registry σ) !! nm) as [info|] eqn:Hnm.
  - destruct (Registry_Get_hit_inv _ _ _ _ _ _ _ Hnm Hget)
      as (l & s & Hp & Hl & -> & -> & ->).
    by apply registry_inj_later with (σ := σ).
  - destruct (Registry_Get_miss_inv _ _ _ _ _ _ Hnm Hget)
      as (id & s0 & e' & -> & HNew & Heq).
    rewrite Heq in Hget. injection Hget as <- <-.
    assert (∀ n i, sessions (registry σ) !! n = Some i →
              info_s i ≠ Some (fresh (dom (heap σ)))) as Hfresh.
    { intros n i Hn Hi.
      destruct (registry_wf_lookup σ n i Hwf Hn) as (l & s & Hinfo & Hl).
      rewrite Hinfo in Hi. simpl in Hi. injection Hi as ->.
      apply (is_fresh (dom (heap σ))). apply elem_of_dom. eauto. }
    intros n1 n2 i1 i2. simpl.
    destruct (decide (n1 = nm)) as [->|Hn1], (decide (n2 = nm)) as [->|Hn2];
      [done| | |].
    + rewrite lookup_insert_eq, lookup_insert_ne by done.
      intros [= <-] Hi2 Heq'. simpl in Heq'. symmetry in Heq'.
      by destruct (Hfresh n2 i2 Hi2).
    + rewrite lookup_insert_eq, lookup_insert_ne by done.
      intros Hi1 [= <-] Heq'. simpl in Heq'. by destruct (Hfresh n1 i1 Hi1).
    + rewrite !lookup_insert_ne by done. apply Hinj.
Qed.

Lemma step_registry_sound (σ σ' : State) (o : op) :
  step σ o σ' → registry_wf σ ∧ registry_inj σ → registry_wf σ' ∧ registry_inj σ'.
Proof.
  intros Hstep [Hwf Hinj].
  assert (registry σ' = registry σ → registry_wf σ' ∧ registry_inj σ') as Hsame.
  { intros Hreg. split.
    - eapply registry_wf_later; [done | by eapply step_heap_le | done].
    - by eapply registry_inj_later. }
  destruct o; simpl in Hstep.
  - subst σ'. apply Hsame, stable_invoke.
  - subst σ'. apply Hsame, stable_invoke.
  - subst σ'. apply Hsame, stable_Session_Save.
  - subst σ'. apply Hsame, stable_invoke.
  - subst σ'. apply Hsame, stable_invoke.
  - subst σ'. apply Hsame, stable_invoke.
  - subst σ'. apply Hsame, stable_invoke.
  - subst σ'. apply Hsame, stable_invoke.
  - subst σ'. apply Hsame, stable_flushSession.
  - destruct (Registry_Get st nm σ) as [[[p e]|f] σ1] eqn:Hget; simpl in Hstep; subst σ'.
    + split; [by eapply Registry_Get_wf | by eapply Registry_Get_inj].
    + apply Hsame. by eapply Registry_Get_panic.
  - destruct Hstep as (res & entries & _ & Hrun). apply Hsame.
    pose proof (stable_Registry_Save_in c entries σ) as Hst. by rewrite Hrun in Hst.
Qed.

(** X10. Every registry that the package's operations build is sound.
    Starting from a registry whose entries point to sessions and in which no
    session is tracked under two names (the empty registry is one), any
    sequence of operations, returning or panicking, leads to a registry of
    the same kind; and on such a registry [Registry.Save] returns, whatever
    order it visits the entries in. *)
Theorem run_registry_sound (σ σ' : State) (os : list op) :
  run σ os σ' →
  registry_wf σ → registry_inj σ →
  registry_wf σ' ∧ registry_inj σ' ∧
  ∀ c res σ'', Registry_Save c σ' res σ'' → returned res.
Proof.
  intros Hrun Hwf Hinj.
  assert (registry_wf σ' ∧ registry_inj σ') as [Hwf' Hinj'].
  { induction Hrun as [σ|σ o σ1 os σ2 Hstep _ IH]; [done|].
    destruct (step_registry_sound _ _ _ Hstep (conj Hwf Hinj)). by apply IH. }
  split; [done|]. split; [done|].
  intros c res σ'' (entries & Hperm & Hsave).
  destruct (registry_wf_tracks σ' entries Hwf' Hperm) as [ts Hts].
  rewrite (Registry_Save_in_spec c entries ts σ' Hts) in Hsave.
  destruct (spec_save_all c ts (ext σ')) as [[f cs] e'].
  by injection Hsave as <- _.
Qed.

(** ** The composite error of [Registry.Save] *)

Lemma spec_save_all_shape (c : floki_Context) (ts : list (string * loc * Session)) :
  ∀ e f cs e', spec_save_all c ts e = (f, cs, e') →
    (length f ≤ length ts)%nat ∧
    Forall (fun x => ∃ nm l s, (nm, l, s) ∈ ts ∧ failure_of nm x) f.
Proof.
  induction ts as [|[[nm0 l0] s0] ts IH]; intros e f cs e' Heq; simpl in Heq.
  - injection Heq as <- <- <-. split; [done | constructor].
  - assert (∀ f2, Forall (fun x => ∃ nm l s, (nm, l, s) ∈ ts ∧ failure_of nm x) f2 →
              Forall (fun x => ∃ nm l s, (nm, l, s) ∈ (nm0, l0, s0) :: ts
                                          ∧ failure_of nm x) f2) as Hweak.
    { intros f2 Hf2. eapply Forall_impl; [exact Hf2|]. intros x (nm & l & s & Hin & Hx).
      exists nm, l, s. split; [by apply elem_of_cons; right | done]. }
    assert (∀ x, failure_of nm0 x →
              ∃ nm l s, (nm, l, s) ∈ (nm0, l0, s0) :: ts ∧ failure_of nm x) as Hhd.
    { intros x Hx. exists nm0, l0, s0. split; [by apply elem_of_cons; left | done]. }
    destruct (store s0) as [id0|]; simpl in Heq.
    + destruct (store_Save id0 c s0 e) as [[msg|] e1];
        destruct (spec_save_all c ts e1) as [[f2 c2] e2] eqn:E2;
        injection Heq as <- <- <-; destruct (IH _ _ _ _ E2) as [Hlen Hall];
        cbn [length app].
      * split; [lia|]. constructor; [|by apply Hweak].
        apply Hhd. right. eauto.
      * split; [lia | by apply Hweak].
    + destruct (spec_save_all c ts e) as [[f2 c2] e2] eqn:E2.
      injection Heq as <- <- <-. destruct (IH _ _ _ _ E2) as [Hlen Hall].
      cbn [length app]. split; [lia|]. constructor; [|by apply Hweak].
      apply Hhd. by left.
Qed.

Lemma tracks_elem_of (h : gmap loc Session) (entries : list (string * sessionInfo))
    (ts : list (string * loc * Session)) (nm : string) (l : loc) (s : Session) :
  Forall2 (tracks h) entries ts → (nm, l, s) ∈ ts →
  ∃ info, (nm, info) ∈ entries.
Proof.
  intros Hall Hin. apply list_elem_of_lookup in Hin as [i Hi].
  destruct (Forall2_lookup_r _ _ _ _ _ Hall Hi) as ([nm' info] & Hentry & Hnm & _).
  simpl in Hnm. subst nm'. exists info. apply list_elem_of_lookup. eauto.
Qed.

(** X11. When [Registry.Save] returns an error, the composite has at least
    one component and at most one per tracked session, no slot is nil, and
    every component is the missing-store message or an error-saving message
    for the name of a tracked session. *)
Theorem Registry_Save_composite (c : floki_Context) (σ σ' : State) (m : MultiError) :
  registry_wf σ →
  Registry_Save c σ (Return (Some m)) σ' →
  (1 ≤ length m ≤ size (sessions (registry σ)))%nat ∧
  length (non_nil m) = length m ∧
  Forall (fun e => ∃ nm, is_Some (sessions (registry σ) !! nm) ∧ failure_of nm e) m.
Proof.
  intros Hwf (entries & Hperm & Hsave).
  destruct (registry_wf_tracks σ entries Hwf Hperm) as [ts Hts].
  rewrite (Registry_Save_in_spec c entries ts σ Hts) in Hsave.
  destruct (spec_save_all c ts (ext σ)) as [[f cs] e'] eqn:E.
  injection Hsave as Hres _.
  assert (f = m ∧ m ≠ []) as [-> Hne]
    by (destruct f; simpl in Hres; [discriminate | by injection Hres as <-]).
  destruct (spec_save_all_shape c ts _ _ _ _ E) as [Hlen Hall].
  assert (Forall (fun e => ∃ nm, is_Some (sessions (registry σ) !! nm)
                                  ∧ failure_of nm e) m) as Hall'.
  { eapply Forall_impl; [exact Hall|].
    intros x (nm & l & s & Hin & Hx). exists nm. split; [|done].
    destruct (tracks_elem_of _ _ _ _ _ _ Hts Hin) as [info Hinfo].
    rewrite Hperm in Hinfo. apply elem_of_map_to_list in Hinfo. eauto. }
  split; [|split; [|done]].
  - rewrite <- length_map_to_list, <- Hperm, (Forall2_length _ _ _ Hts).
    split; [|done]. destruct m; [done | simpl; lia].
  - clear -Hall'. induction Hall' as [|x m (nm & _ & Hx) _ IH]; [done|].
    unfold non_nil in *. destruct Hx as [->|[msg ->]]; simpl; by f_equal.
Qed.

End Request_properties.

(** ** Cookies *)

(** X12. [NewCookie] copies name, value and the five options into the
    cookie, and sets [Expires] by the sign of [MaxAge]: never assigned for
    [MaxAge = 0]; one second after the Unix epoch for [MaxAge < 0]; and, for
    a positive [MaxAge] of up to 9223372036 seconds, exactly [MaxAge] seconds
    after the current time, hence later than it. *)
Theorem NewCookie_Expires (nm val : string) (o : Options) (now : Time) :
  (MaxAge o ≤ 9223372036)%Z →
  ∃ c, NewCookie nm val (Some o) now = Result c ∧
    Cookie_Name c = nm ∧ Cookie_Value c = val ∧
    Cookie_Path c = Path o ∧ Cookie_Domain c = Domain o ∧
    Cookie_MaxAge c = MaxAge o ∧ Cookie_Secure c = Secure o ∧
    Cookie_HttpOnly c = HttpOnly o ∧
    ((MaxAge o = 0)%Z → Cookie_Expires c = zero_Time) ∧
    ((MaxAge o < 0)%Z → Cookie_Expires c = 1000000000%Z) ∧
    ((MaxAge o > 0)%Z →
       Cookie_Expires c = (now + MaxAge o * 1000000000)%Z ∧
       (now < Cookie_Expires c)%Z).
Proof.
  intros Hmax. eexists. split; [reflexivity|]. simpl.
  repeat (split; [reflexivity|]).
  split; [|split].
  - intros ->. by rewrite !decide_False by lia.
  - intros Hneg. rewrite decide_False by lia. by rewrite decide_True by lia.
  - intros Hpos. rewrite decide_True by lia.
    unfold Time_Add, Duration_mul, wrap64, time_Second.
    rewrite Z.mod_small by lia. lia.
Qed.

Lemma NewCookie_Expires_witness :
  let o := {| Path := "/"; Domain := EmptyString; MaxAge := 3600%Z;
              Secure := false; HttpOnly := true |} in
  ∃ c, NewCookie "sid" "abc" (Some o) 1700000000000000000%Z = Result c ∧
    Cookie_Name c = "sid" ∧ Cookie_Value c = "abc" ∧
    Cookie_Path c = Path o ∧ Cookie_Domain c = Domain o ∧
    Cookie_MaxAge c = MaxAge o ∧ Cookie_Secure c = Secure o ∧
    Cookie_HttpOnly c = HttpOnly o ∧
    ((MaxAge o = 0)%Z → Cookie_Expires c = zero_Time) ∧
    ((MaxAge o < 0)%Z → Cookie_Expires c = 1000000000%Z) ∧
    ((MaxAge o > 0)%Z →
       Cookie_Expires c = (1700000000000000000 + MaxAge o * 1000000000)%Z ∧
       (1700000000000000000 < Cookie_Expires c)%Z).
Proof.
  apply (NewCookie_Expires "sid" "abc"
           {| Path := "/"; Domain := EmptyString; MaxAge := 3600%Z;
              Secure := false; HttpOnly := true |} 1700000000000000000%Z).
  simpl. lia.
Defined.

(** X13. The duration is computed in 64-bit nanoseconds and wraps: for a
    [MaxAge] from 9223372037 to 18446744073 seconds the cookie gets an
    [Expires] before the current time, although its [MaxAge] is positive. *)
Theorem NewCookie_Expires_wraps (nm val : string) (o : Options) (now : Time) :
  (9223372037 ≤ MaxAge o ≤ 18446744073)%Z →
  ∃ c, NewCookie nm val (Some o) now = Result c ∧
    Cookie_MaxAge c = MaxAge o ∧
    Cookie_Expires c = (now + (MaxAge o * 1000000000 - 2 ^ 64))%Z ∧
    (Cookie_Expires c < now)%Z.
Proof.
  intros Hmax. eexists. split; [reflexivity|]. simpl. split; [done|].
  rewrite decide_True by lia.
  unfold Time_Add, Duration_mul, wrap64, time_Second.
  assert ((MaxAge o * 1000000000 + 2 ^ 63) mod 2 ^ 64
          = MaxAge o * 1000000000 + 2 ^ 63 - 2 ^ 64)%Z as ->.
  { symmetry. apply (Z.mod_unique_pos _ _ 1); lia. }
  lia.
Qed.

Lemma NewCookie_Expires_wraps_witness :
  let o := {| Path := "/"; Domain := EmptyString; MaxAge := 9223372037%Z;
              Secure := false; HttpOnly := true |} in
  ∃ c, NewCookie "sid" "abc" (Some o) 1700000000000000000%Z = Result c ∧
    Cookie_MaxAge c = MaxAge o ∧
    Cookie_Expires c
    = (1700000000000000000%Z + (MaxAge o * 1000000000 - 2 ^ 64))%Z ∧
    (Cookie_Expires c < 1700000000000000000)%Z.
Proof.
  apply (NewCookie_Expires_wraps "sid" "abc"
           {| Path := "/"; Domain := EmptyString; MaxAge := 9223372037%Z;
              Secure := false; HttpOnly := true |} 1700000000000000000%Z).
  simpl. lia.
Defined.

Example NewCookie_nil_options :
  NewCookie "sid" "abc" None 0%Z = PanicValue "NewCookie got <nil> options".
Proof. reflexivity. Qed.

(** ** The middleware *)

Section Middleware_properties.
Context `{StoreEnv} `{GoFmt}.

Ltac run := unfold mbind, M_bind, mret, M_ret, gets, modify, panic; simpl.
Ltac hrun :=
  unfold mbind, Handler_bind, mret, Handler_ret, abort_with, lift,
    Context_Set, Context_Get, Context_MustGet, Context_BeforeDestroy_flushSession;
  simpl.

Lemma GetRegistry_new (c : floki_Context) (r : Request) :
  items r !! registryKey = None →
  GetRegistry c r = (Done tt, with_registry c r).
Proof. intros Hr. unfold GetRegistry. hrun. by rewrite Hr. Qed.

Lemma GetRegistry_again (c : floki_Context) (r : Request) :
  items r !! registryKey = Some ItemRegistry →
  GetRegistry c r = (Done tt, r).
Proof. intros Hr. unfold GetRegistry. hrun. by rewrite Hr. Qed.

Lemma Registry_Get_returned_alloc (σ σ1 : State) (st : Store) (nm : string)
    (p : ptr) (e : error) :
  Registry_Get st nm σ = (Return (p, e), σ1) →
  ∃ l s, p = Some l ∧ heap σ1 !! l = Some s.
Proof.
  intros Hget. destruct (sessions (registry σ) !! nm) as [info|] eqn:Hnm.
  - destruct (Registry_Get_hit_inv _ _ _ _ _ _ _ Hnm Hget)
      as (l & s & Hp & Hl & -> & -> & ->).
    eexists _, _. split; [done|]. simpl. apply lookup_insert_eq.
  - destruct (Registry_Get_miss_inv _ _ _ _ _ _ Hnm Hget)
      as (id & s0 & e' & -> & HNew & Heq).
    rewrite Heq in Hget. injection Hget as <- <-.
    eexists _, _. split; [done|]. simpl. apply lookup_insert_eq.
Qed.

(** The handler, given what [GetRegistry] and [Registry.Get] do. *)
Lemma Sessions_run (nm : string) (st : Store) (options : option Options)
    (next : Handler unit) (c : floki_Context) (r r0 : Request) (σ1 : State)
    (p : ptr) (e : error) :
  GetRegistry c r = (Done tt, r0) →
  Registry_Get st nm (state r0) = (Return (p, e), σ1) →
  Sessions nm st options next c r
  = match e, p with
    | Some msg, _ => (Abort (PanicError msg), set_state σ1 r0)
    | None, Some l => next (with_session l σ1 r0)
    | None, None => (Abort (Fault NilDereference), set_state σ1 r0)
    end.
Proof.
  intros Hreg Hget. unfold Sessions. hrun. rewrite Hreg. simpl. rewrite Hget. simpl.
  destruct e as [msg|]; [done|].
  destruct (Registry_Get_returned_alloc _ _ _ _ _ _ Hget) as (l & s & -> & Hl).
  unfold deref. simpl. rewrite Hl. done.
Qed.

(** X14. [GetRegistry] makes the registry once. On a context that holds
    nothing under the registry key it creates an empty registry bound to the
    context and stores it under the key, leaving sessions, stores and every
    other key alone; on a context that holds a registry it changes nothing,
    so the sessions tracked so far stay tracked. *)
Theorem GetRegistry_once (c : floki_Context) (r : Request) :
  items r !! registryKey = None →
  ∃ r1, GetRegistry c r = (Done tt, r1) ∧
    registry (state r1) = {| context := c; sessions := ∅ |} ∧
    heap (state r1) = heap (state r) ∧
    ext (state r1) = ext (state r) ∧
    calls (state r1) = calls (state r) ∧
    items r1 = <[registryKey := ItemRegistry]> (items r) ∧
    hooks r1 = hooks r ∧
    ∀ c' r2, items r2 !! registryKey = Some ItemRegistry →
      GetRegistry c' r2 = (Done tt, r2).
Proof.
  intros Hr. exists (with_registry c r).
  split; [by apply GetRegistry_new|].
  repeat (split; [done|]). intros c' r2. apply GetRegistry_again.
Qed.

(** X15. The first [Sessions] middleware of a request, on a store whose
    [New] returns a session and no error: the handler makes the registry,
    creates the session with one [New] call, tracks it under the name, puts
    the session under "_session" and its values under "session", registers
    [flushSession] once, and runs the rest of the chain. There, [Get]
    returns the tracked session, and it is that session that [flushSession]
    flushes. *)
Theorem Sessions_first (nm : string) (id : store_ref) (options : option Options)
    (next : Handler unit) (c : floki_Context) (r : Request)
    (s0 : Session) (e' : store_state) :
  items r !! registryKey = None →
  store_New id c nm (ext (state r)) = ((Some s0, None), e') →
  let l := fresh (dom (heap (state r))) in
  ∃ r',
    Sessions nm (Some id) options next c r = next r' ∧
    items r' = <["session" := ItemValues l]>
                 (<["_session" := ItemSession (Some l)]>
                    (<[registryKey := ItemRegistry]> (items r))) ∧
    hooks r' = S (hooks r) ∧
    heap (state r') = <[l := set_store (Some id) (set_name nm s0)]> (heap (state r)) ∧
    sessions (registry (state r'))
    = {[nm := {| info_s := Some l; info_e := None |}]} ∧
    calls (state r') = calls (state r) ++ [CallNew id nm] ∧
    Get c r' = (Done (Some l), r') ∧
    flushSession_hook c r' = lift (flushSession c (Some l)) r'.
Proof.
  intros Hr HNew l.
  pose proof (Registry_Get_miss (state (with_registry c r)) id nm s0 None e'
                (lookup_empty nm) HNew) as Hget.
  simpl in Hget. fold l in Hget.
  eexists. split.
  - rewrite (Sessions_run nm (Some id) options next c r _ _ _ _
               (GetRegistry_new c r Hr) Hget). reflexivity.
  - simpl. repeat (split; [done|]). split.
    + unfold Get. hrun. rewrite lookup_insert_ne by done.
      by rewrite lookup_insert_eq.
    + unfold flushSession_hook, Get. hrun. rewrite lookup_insert_ne by done.
      by rewrite lookup_insert_eq.
Qed.

(** X16. When the store's [New] returns a session together with an error,
    the handler panics with that error: nothing is put under "_session",
    [flushSession] is not registered and the rest of the chain does not run.
    The session and the error are tracked all the same, so running the
    middleware again for that name in the same request, with whatever store,
    panics with the same error and does not call the store. *)
Theorem Sessions_creation_error (nm : string) (id : store_ref) (st' : Store)
    (options options' : option Options) (next next' : Handler unit)
    (c : floki_Context) (r : Request) (s0 : Session) (msg : string)
    (e' : store_state) :
  items r !! registryKey = None →
  store_New id c nm (ext (state r)) = ((Some s0, Some msg), e') →
  ∃ r1 r2,
    Sessions nm (Some id) options next c r = (Abort (PanicError msg), r1) ∧
    items r1 = <[registryKey := ItemRegistry]> (items r) ∧
    hooks r1 = hooks r ∧
    sessions (registry (state r1))
    = {[nm := {| info_s := Some (fresh (dom (heap (state r))));
                 info_e := Some msg |}]} ∧
    calls (state r1) = calls (state r) ++ [CallNew id nm] ∧
    Sessions nm st' options' next' c r1 = (Abort (PanicError msg), r2) ∧
    items r2 = items r1 ∧ hooks r2 = hooks r1 ∧
    calls (state r2) = calls (state r1).
Proof.
  intros Hr HNew.
  pose proof (Registry_Get_miss (state (with_registry c r)) id nm s0 (Some msg) e'
                (lookup_empty nm) HNew) as Hget.
  simpl in Hget.
  pose proof (Sessions_run nm (Some id) options next c r _ _ _ _
                (GetRegistry_new c r Hr) Hget) as Hfirst.
  simpl in Hfirst.
  eexists _, _. split; [exact Hfirst|]. simpl.
  repeat (split; [done|]).
  match goal with |- Sessions _ _ _ _ _ ?r1 = _ ∧ _ => set (r1' := r1) end.
  assert (items r1' !! registryKey = Some ItemRegistry) as Hreg
    by apply lookup_insert_eq.
  assert (Registry_Get st' nm (state r1')
          = (Return (Some (fresh (dom (heap (state r)))), Some msg),
             set_heap (<[fresh (dom (heap (state r)))
                         := set_store st' (set_store (Some id) (set_name nm s0))]>)
               (state r1'))) as Hget'.
  { apply Registry_Get_hit; simpl; apply lookup_insert_eq. }
  rewrite (Sessions_run nm st' options' next' c r1' _ _ _ _
             (GetRegistry_again c r1' Hreg) Hget').
  split; [reflexivity|]. done.
Qed.

(** X17. Two [Sessions] middlewares in one chain share the single
    "_session" slot of the context. With two different names, on stores
    whose [New] returns a session and no error, both sessions are created,
    at different addresses, and tracked by the registry, and [flushSession]
    is registered twice; but in the rest of the chain [Get] returns the
    session of the inner middleware, and that is the session [flushSession]
    flushes: the session of the outer middleware is reachable through the
    registry only. *)
Theorem Sessions_nested (na nb : string) (ida idb : store_ref)
    (oa ob : option Options) (next : Handler unit) (c : floki_Context)
    (r : Request) (sa sb : Session) (ea eb : store_state) :
  na ≠ nb →
  items r !! registryKey = None →
  store_New ida c na (ext (state r)) = ((Some sa, None), ea) →
  store_New idb c nb ea = ((Some sb, None), eb) →
  let la := fresh (dom (heap (state r))) in
  let lb := fresh (dom (<[la := set_store (Some ida) (set_name na sa)]>
                          (heap (state r)))) in
  ∃ r',
    Sessions na (Some ida) oa (Sessions nb (Some idb) ob next c) c r = next r' ∧
    la ≠ lb ∧
    sessions (registry (state r')) !! na
    = Some {| info_s := Some la; info_e := None |} ∧
    sessions (registry (state r')) !! nb
    = Some {| info_s := Some lb; info_e := None |} ∧
    is_Some (heap (state r') !! la) ∧ is_Some (heap (state r') !! lb) ∧
    hooks r' = S (S (hooks r)) ∧
    Get c r' = (Done (Some lb), r') ∧
    flushSession_hook c r' = lift (flushSession c (Some lb)) r'.
Proof.
  intros Hne Hr HNa HNb la lb.
  assert (la ≠ lb) as Hll.
  { intros Heq. apply (is_fresh (dom (<[la := set_store (Some ida) (set_name na sa)]>
                                        (heap (state r))))).
    fold lb. rewrite <- Heq. apply elem_of_dom. rewrite lookup_insert_eq. eauto. }
  pose proof (Registry_Get_miss (state (with_registry c r)) ida na sa None ea
                (lookup_empty na) HNa) as Hga.
  simpl in Hga. fold la in Hga.
  pose proof (Sessions_run na (Some ida) oa (Sessions nb (Some idb) ob next c) c r
                _ _ _ _ (GetRegistry_new c r Hr) Hga) as Hfirst.
  simpl in Hfirst. rewrite Hfirst. clear Hfirst.
  match goal with |- ∃ _, Sessions _ _ _ _ _ ?ra = _ ∧ _ => set (ra' := ra) end.
  assert (items ra' !! registryKey = Some ItemRegistry) as Hreg.
  { unfold ra', with_session. simpl.
    rewrite !lookup_insert_ne by done. apply lookup_insert_eq. }
  assert (sessions (registry (state ra')) !! nb = None) as Hnb.
  { unfold ra'. simpl. rewrite lookup_insert_ne by done. apply lookup_empty. }
  pose proof (Registry_Get_miss (state ra') idb nb sb None eb Hnb HNb) as Hgb.
  simpl in Hgb. fold lb in Hgb.
  rewrite (Sessions_run nb (Some idb) ob next c ra' _ _ _ _
             (GetRegistry_again c ra' Hreg) Hgb).
  eexists. split; [reflexivity|]. simpl.
  split; [done|]. split; [by rewrite lookup_insert_ne, lookup_insert_eq|].
  split; [by rewrite lookup_insert_eq|].
  split; [rewrite lookup_insert_ne by done; rewrite lookup_insert_eq; eauto|].
  split; [rewrite lookup_insert_eq; eauto|].
  split; [done|]. split.
  - unfold Get. hrun. rewrite lookup_insert_ne by done.
    by rewrite lookup_insert_eq.
  - unfold flushSession_hook, Get. hrun. rewrite lookup_insert_ne by done.
    by rewrite lookup_insert_eq.
Qed.

(** X18. The package-level [Save] on a context for which no registry was
    made yet: it makes the empty registry, finds no session to save, calls
    no store, and returns nil. *)
Theorem Save_without_registry (c : floki_Context) (r : Request) :
  items r !! registryKey = None →
  (∃ res r', Save c r res r') ∧
  ∀ res r', Save c r res r' → res = Done None ∧ r' = with_registry c r.
Proof.
  intros Hr.
  assert (Save_in c [] r = (Done None, with_registry c r)) as Hrun.
  { unfold Save_in. hrun. by rewrite (GetRegistry_new c r Hr). }
  assert (∀ entries,
            entries ≡ₚ map_to_list (sessions (registry (state (snd (GetRegistry c r)))))
            → entries = []) as Hnil.
  { intros entries. rewrite (GetRegistry_new c r Hr). simpl.
    rewrite map_to_list_empty. apply Permutation_nil_r. }
  split.
  - exists (Done None), (with_registry c r), [].
    split; [|done]. rewrite (GetRegistry_new c r Hr). simpl.
    by rewrite map_to_list_empty.
  - intros res r' (entries & Hperm & Hsave).
    rewrite (Hnil entries Hperm), Hrun in Hsave. by injection Hsave as <- <-.
Qed.

End Middleware_properties.

(** ** The further statements on the fake stores *)

Section Fake_middleware.
#[local] Existing Instance fake_stores.
#[local] Existing Instance fake_fmt.

Lemma flushSession_saves_iff_dirty_witness :
  let s := set_dirty true
             (set_Values (<[KString "user" := VInt 7]>) (NewSession (Some 1) "sid")) in
  (dirty s = false → flushSession 7 (Some 1%positive) one_dirty_session
                     = (Return tt, one_dirty_session)) ∧
  (dirty s = true → store s = None →
     flushSession 7 (Some 1%positive) one_dirty_session
     = (Panic NilDereference, one_dirty_session)) ∧
  (dirty s = true → ∀ id, store s = Some id →
     flushSession 7 (Some 1%positive) one_dirty_session
     = (match fst (store_Save id 7 s (ext one_dirty_session)) with
        | None => Return tt
        | Some _ => Panic Fatal
        end,
        with_stores one_dirty_session (snd (store_Save id 7 s (ext one_dirty_session)))
          [CallSave id 1%positive (fst (store_Save id 7 s (ext one_dirty_session)))])).
Proof.
  apply (flushSession_saves_iff_dirty 7 one_dirty_session 1%positive
           (set_dirty true
              (set_Values (<[KString "user" := VInt 7]>) (NewSession (Some 1) "sid")))).
  vm_compute. reflexivity.
Defined.

Lemma Session_Save_without_store_witness :
  Session_Save 7 None three_sessions = (Panic NilDereference, three_sessions) ∧
  Session_Save 7 (Some 3%positive) three_sessions
  = (Panic NilDereference, three_sessions) ∧
  Registry_Save_in 7 [("c", {| info_s := Some 3%positive; info_e := None |})]
    three_sessions
  = (Return (Some [Some (missing_store "c")]), three_sessions).
Proof.
  apply (Session_Save_without_store 7 three_sessions 3%positive
           (set_store None (NewSession (Some 0) "c")) "c" None);
    vm_compute; reflexivity.
Defined.

Lemma Registry_Get_failure_not_cached_witness :
  Registry_Get None "sid" fresh_request = (Panic NilDereference, fresh_request) ∧
  ∀ id, fst (fst (store_New id (context (registry fresh_request)) "sid"
                    (ext fresh_request))) = None →
    ∃ σ', Registry_Get (Some id) "sid" fresh_request = (Panic NilDereference, σ') ∧
      registry σ' = registry fresh_request ∧ heap σ' = heap fresh_request ∧
      calls σ' = calls fresh_request ++ [CallNew id "sid"].
Proof.
  apply (Registry_Get_failure_not_cached fresh_request "sid"). reflexivity.
Defined.

Lemma Registry_Get_frame_witness :
  (∀ nm', nm' ≠ "sid" →
     sessions (registry one_session) !! nm' = sessions (registry fresh_request) !! nm') ∧
  (∀ l s, heap fresh_request !! l = Some s → Some 1%positive ≠ Some l →
     heap one_session !! l = Some s) ∧
  context (registry one_session) = context (registry fresh_request) ∧
  (∃ l s, Some 1%positive = Some l ∧ heap one_session !! l = Some s ∧
          store s = Some 1 ∧
          sessions (registry one_session) !! "sid"
          = Some {| info_s := Some l;
                    info_e := Some "securecookie: the value is not valid" |}).
Proof.
  apply (Registry_Get_frame fresh_request one_session (Some 1) "sid"
           (Some 1%positive) (Some "securecookie: the value is not valid")).
  vm_compute. reflexivity.
Defined.

Lemma run_registry_sound_witness :
  registry_wf three_sessions ∧ registry_inj three_sessions ∧
  ∀ c res σ'', Registry_Save c three_sessions res σ'' → returned res.
Proof.
  apply (run_registry_sound fresh_request three_sessions
           [OpRegistryGet (Some 0) "a"; OpRegistryGet (Some 1) "b";
            OpRegistryGet (Some 0) "c"; OpRegistryGet None "c"]).
  - repeat (eapply run_cons; [simpl; reflexivity|]). apply run_nil.
  - apply (bool_decide_unpack _). vm_compute. exact I.
  - intros n1 n2 i1 i2 Hn1. simpl in Hn1. by rewrite lookup_empty in Hn1.
Defined.

Lemma Registry_Save_composite_witness :
  let m := [Some (missing_store "c"); Some (error_saving "b" "disk full")] in
  (1 ≤ length m ≤ size (sessions (registry three_sessions)))%nat ∧
  length (non_nil m) = length m ∧
  Forall (fun e => ∃ nm, is_Some (sessions (registry three_sessions) !! nm)
                          ∧ failure_of nm e) m.
Proof.
  apply (Registry_Save_composite 7 three_sessions
           (snd (Registry_Save_in 7 (map_to_list (sessions (registry three_sessions)))
                   three_sessions))).
  - apply (bool_decide_unpack _). vm_compute. exact I.
  - exists (map_to_list (sessions (registry three_sessions))).
    split; [done|]. vm_compute. reflexivity.
Defined.

Lemma GetRegistry_once_witness :
  ∃ r1, GetRegistry 7 fresh_context = (Done tt, r1) ∧
    registry (state r1) = {| context := 7; sessions := ∅ |} ∧
    heap (state r1) = heap (state fresh_context) ∧
    ext (state r1) = ext (state fresh_context) ∧
    calls (state r1) = calls (state fresh_context) ∧
    items r1 = <[registryKey := ItemRegistry]> (items fresh_context) ∧
    hooks r1 = hooks fresh_context ∧
    ∀ c' r2, items r2 !! registryKey = Some ItemRegistry →
      GetRegistry c' r2 = (Done tt, r2).
Proof. apply (GetRegistry_once 7 fresh_context). reflexivity. Defined.

Lemma Sessions_first_witness :
  let l := fresh (dom (heap (state fresh_context))) in
  ∃ r',
    Sessions "sid" (Some 0) None no_handler 7 fresh_context = no_handler r' ∧
    items r' = <["session" := ItemValues l]>
                 (<["_session" := ItemSession (Some l)]>
                    (<[registryKey := ItemRegistry]> (items fresh_context))) ∧
    hooks r' = S (hooks fresh_context) ∧
    heap (state r')
    = <[l := set_store (Some 0) (set_name "sid" (NewSession (Some 0) "sid"))]>
        (heap (state fresh_context)) ∧
    sessions (registry (state r'))
    = {[ "sid" := {| info_s := Some l; info_e := None |}]} ∧
    calls (state r') = calls (state fresh_context) ++ [CallNew 0 "sid"] ∧
    Get 7 r' = (Done (Some l), r') ∧
    flushSession_hook 7 r' = lift (flushSession 7 (Some l)) r'.
Proof.
  apply (Sessions_first "sid" 0 None no_handler 7 fresh_context
           (NewSession (Some 0) "sid") 0); reflexivity.
Defined.

Lemma Sessions_creation_error_witness :
  ∃ r1 r2,
    Sessions "sid" (Some 1) None no_handler 7 fresh_context
    = (Abort (PanicError "securecookie: the value is not valid"), r1) ∧
    items r1 = <[registryKey := ItemRegistry]> (items fresh_context) ∧
    hooks r1 = hooks fresh_context ∧
    sessions (registry (state r1))
    = {[ "sid" := {| info_s := Some (fresh (dom (heap (state fresh_context))));
                     info_e := Some "securecookie: the value is not valid" |}]} ∧
    calls (state r1) = calls (state fresh_context) ++ [CallNew 1 "sid"] ∧
    Sessions "sid" (Some 0) None no_handler 7 r1
    = (Abort (PanicError "securecookie: the value is not valid"), r2) ∧
    items r2 = items r1 ∧ hooks r2 = hooks r1 ∧
    calls (state r2) = calls (state r1).
Proof.
  apply (Sessions_creation_error "sid" 1 (Some 0) None None no_handler no_handler 7 fresh_context
           (NewSession (Some 1) "sid") "securecookie: the value is not valid" 0);
    reflexivity.
Defined.

Lemma Sessions_nested_witness :
  let la := fresh (dom (heap (state fresh_context))) in
  let lb := fresh (dom (<[la := set_store (Some 0) (set_name "a" (NewSession (Some 0) "a"))]>
                          (heap (state fresh_context)))) in
  ∃ r',
    Sessions "a" (Some 0) None (Sessions "b" (Some 0) None no_handler 7) 7 fresh_context
    = no_handler r' ∧
    la ≠ lb ∧
    sessions (registry (state r')) !! "a"
    = Some {| info_s := Some la; info_e := None |} ∧
    sessions (registry (state r')) !! "b"
    = Some {| info_s := Some lb; info_e := None |} ∧
    is_Some (heap (state r') !! la) ∧ is_Some (heap (state r') !! lb) ∧
    hooks r' = S (S (hooks fresh_context)) ∧
    Get 7 r' = (Done (Some lb), r') ∧
    flushSession_hook 7 r' = lift (flushSession 7 (Some lb)) r'.
Proof.
  apply (Sessions_nested "a" "b" 0 0 None None no_handler 7 fresh_context
           (NewSession (Some 0) "a") (NewSession (Some 0) "b") 0 0);
    [discriminate | reflexivity..].
Defined.

(** With both middlewares in the chain and a handler that sets a value in
    the outer session "a" only, the two registered flushes save nothing:
    the session they look at is "b", which is not dirty. *)
Example Sessions_nested_outer_not_flushed :
  let handler : Handler unit :=
    lift (invoke (Some 1%positive) (Session_Set (KString "user") (VInt 7))) in
  let r := snd (Sessions "a" (Some 0) None (Sessions "b" (Some 0) None handler 7) 7
                  fresh_context) in
  dirty <$> heap (state r) !! 1%positive = Some true ∧
  Get 7 r = (Done (Some 2%positive), r) ∧
  flushSession_hook 7 r = (Done tt, r) ∧
  calls (state r) = [CallNew 0 "a"; CallNew 0 "b"].
Proof. vm_compute. repeat split. Qed.

Lemma Save_without_registry_witness :
  (∃ res r', Save 7 fresh_context res r') ∧
  ∀ res r', Save 7 fresh_context res r' →
    res = Done None ∧ r' = with_registry 7 fresh_context.
Proof. apply (Save_without_registry 7 fresh_context). reflexivity. Defined.

End Fake_middleware.
